(** * International Dental Expansion – Calculus Model (app.py)

    A shallow embedding of the compute-and-plot pipeline of [app.py]:
    the country table, the four function templates, SymPy's symbolic
    differentiation, NumPy sampling, the Matplotlib figure that the
    script fills, and the two fail-soft loops that mark critical and
    inflection points.

    Conventions.
    - Python floats and SymPy numbers are modelled by the rationals that
      their decimal literals denote ([Q]); rounding is outside the model.
      Their meaning as real numbers goes through [Q2R].
    - SymPy, NumPy and Matplotlib are libraries, not code of the script.
      [sp_diff], [lambdify], [linspace], [plot] and [axvline] model the
      part of their behaviour that the script relies on; [sp.solve] is a
      parameter of the pipeline ([sp_solve]).
    - Python exceptions are the subclasses of [Exception]; a computation
      that may raise returns a [result]. *)

From Stdlib Require Import ZArith QArith Qreals Reals Lra Lia List String.
From stdpp Require Import base gmap strings.
Import ListNotations.

Local Open Scope string_scope.
Local Open Scope list_scope.

(** ** Python exceptions and fallible results *)

Inductive exception : Type :=
| KeyError (key : string)
| ValueError (msg : string)
| TypeError (msg : string)
| NotImplementedError (msg : string).

Inductive result (A : Type) : Type :=
| Ok (v : A)
| Raise (e : exception).

Arguments Ok {A} v.
Arguments Raise {A} e.

(** ** Symbolic expressions in the one symbol [x = sp.symbols("x")] *)

Inductive expr : Type :=
| Num (q : Q)
| X
| Add (u v : expr)
| Mul (u v : expr)
| Pow (u : expr) (n : Z)
| Exp (u : expr)
| Log (u : expr)
| Sin (u : expr)
| Cos (u : expr).

Declare Scope expr_scope.
Delimit Scope expr_scope with E.
Bind Scope expr_scope with expr.
Infix "+" := Add : expr_scope.
Infix "*" := Mul : expr_scope.
Infix "**" := Pow (at level 30, right associativity) : expr_scope.

(** ** Country parameters *)

Record params : Type := mk_params { a : Q; b : Q; c : Q }.

Definition countries : list string :=
  [ "Spain 🇪🇸";
    "Italy 🇮🇹";
    "United States 🇺🇸";
    "Mexico 🇲🇽";
    "Japan 🇯🇵";
    "Brazil 🇧🇷" ].

Definition country_params : gmap string params :=
  list_to_map
    [ ("Spain 🇪🇸", mk_params 1.2 0.45 3);
      ("Italy 🇮🇹", mk_params 1.0 0.30 4.5);
      ("United States 🇺🇸", mk_params 1.5 0.35 6);
      ("Mexico 🇲🇽", mk_params 1.1 0.50 2.5);
      ("Japan 🇯🇵", mk_params 0.9 0.25 5);
      ("Brazil 🇧🇷", mk_params 1.3 0.55 3) ].

(** [d[key]] on a Python dict: the value, or [KeyError]. *)
Definition getitem {V : Type} (d : gmap string V) (key : string) : result V :=
  match d !! key with
  | Some v => Ok v
  | None => Raise (KeyError key)
  end.

(** ** Function type and function builder *)

Definition function_types : list string :=
  [ "Exponential (Market Growth)";
    "Logarithmic (Diminishing Returns)";
    "Polynomial (Cost Structure)";
    "Trigonometric (Seasonality)" ].

(** [build_function] reads the global [function_type]; a string that
    matches no branch falls off the end of the Python function, which
    then returns [None]. *)
Definition build_function (function_type : string) (params : params)
  : option expr :=
  let a := Num (a params) in
  let b := Num (b params) in
  let c := Num (c params) in
  if String.eqb function_type "Exponential (Market Growth)" then
    Some (a * Exp (b * X) + c)%E
  else if String.eqb function_type "Logarithmic (Diminishing Returns)" then
    Some (a * Log (b * X) + c)%E
  else if String.eqb function_type "Polynomial (Cost Structure)" then
    Some (a * X ** 2 + b * X + c)%E
  else if String.eqb function_type "Trigonometric (Seasonality)" then
    Some (a * Sin (b * X) + c)%E
  else None.

(** ** Meaning of an expression as a real function *)

Fixpoint denote (e : expr) (x : R) : R :=
  match e with
  | Num q => Q2R q
  | X => x
  | Add u v => denote u x + denote v x
  | Mul u v => denote u x * denote v x
  | Pow u n => powerRZ (denote u x) n
  | Exp u => exp (denote u x)
  | Log u => ln (denote u x)
  | Sin u => sin (denote u x)
  | Cos u => cos (denote u x)
  end%R.

(** Points at which the expression is defined over the reals: arguments
    of [log] are positive and bases of negative powers are not zero. *)
Fixpoint defined (e : expr) (x : R) : Prop :=
  match e with
  | Num _ | X => True
  | Add u v | Mul u v => defined u x /\ defined v x
  | Pow u n => defined u x /\ ((n < 0)%Z -> denote u x <> 0%R)
  | Exp u | Sin u | Cos u => defined u x
  | Log u => defined u x /\ (0 < denote u x)%R
  end.

(** ** [sp.diff]: differentiation with respect to [x]

    SymPy evaluates sums and products of numbers as it builds an
    expression: numbers are folded, [0 + e] is [e], [0 * e] is [0] and
    [1 * e] is [e].  The constructors [mk_add], [mk_mul] and [mk_pow]
    do the same, so that the derivative of a polynomial of degree [n]
    taken [n] times is a number, as it is in SymPy.  The written form of
    a result can differ from SymPy's (SymPy writes the derivative of
    [log(b*x)] as [1/x], here it is [b * (b*x)**(-1)]); its value at every
    point is the derivative ([sp_diff_correct] below), and for the four
    templates with the coefficients of the table [x] occurs in it exactly
    when it occurs in SymPy's. *)

Definition mk_add (u v : expr) : expr :=
  match u, v with
  | Num p, Num q => Num (Qred (p + q))
  | Num p, _ => if Qeq_bool p 0 then v else Add u v
  | _, Num q => if Qeq_bool q 0 then u else Add u v
  | _, _ => Add u v
  end.

(** A number times an expression, the number in front. *)
Definition scale (p : Q) (v : expr) : expr :=
  if Qeq_bool p 0 then Num 0
  else if Qeq_bool p 1 then v
  else Mul (Num p) v.

Definition mk_mul (u v : expr) : expr :=
  match u, v with
  | Num p, Num q => Num (Qred (p * q))
  | Num p, Mul (Num q) w => scale (Qred (p * q)) w
  | Mul (Num q) w, Num p => scale (Qred (p * q)) w
  | Num p, _ => scale p v
  | _, Num q => scale q u
  | _, _ => Mul u v
  end.

Definition mk_pow (u : expr) (n : Z) : expr :=
  if (n =? 0)%Z then Num 1
  else if (n =? 1)%Z then u
  else Pow u n.

Fixpoint sp_diff (e : expr) : expr :=
  match e with
  | Num _ => Num 0
  | X => Num 1
  | Add u v => mk_add (sp_diff u) (sp_diff v)
  | Mul u v => mk_add (mk_mul (sp_diff u) v) (mk_mul u (sp_diff v))
  | Pow u n =>
      mk_mul (mk_mul (Num (inject_Z n)) (mk_pow u (n - 1))) (sp_diff u)
  | Exp u => mk_mul (Exp u) (sp_diff u)
  | Log u => mk_mul (sp_diff u) (Pow u (-1))
  | Sin u => mk_mul (Cos u) (sp_diff u)
  | Cos u => mk_mul (Num (-1)) (mk_mul (Sin u) (sp_diff u))
  end.

(** Does the symbol occur in the expression? *)
Fixpoint has_x (e : expr) : bool :=
  match e with
  | Num _ => false
  | X => true
  | Add u v | Mul u v => has_x u || has_x v
  | Pow u _ | Exp u | Log u | Sin u | Cos u => has_x u
  end.


(** ** NumPy values and [sp.lambdify(x, e, "numpy")]

    The function that [lambdify] generates evaluates the expression with
    NumPy's functions on its argument.  A number of the expression is a
    Python scalar, the argument is whatever the caller passes (the script
    passes the array [x_vals]), and every operation broadcasts: a scalar
    with an array gives an array.  An expression in which [x] does not
    occur therefore evaluates to a scalar, whatever the argument.

    The elements are real numbers: this is the evaluation on the domain
    of the expression, where every [float64] involved is finite (rounding
    and overflow are outside the model).  What NumPy computes off the
    domain, where [np.log] gives [nan] or [-inf], is [np_value] below; the
    two agree wherever the expression is defined ([np_value_defined]). *)

Inductive ndarray : Type :=
| Scalar (v : R)
| Array (vs : list R).

Fixpoint zip_with_R (op : R -> R -> R) (ps qs : list R) : list R :=
  match ps, qs with
  | p :: ps', q :: qs' => op p q :: zip_with_R op ps' qs'
  | _, _ => []
  end.

Definition ufunc (f : R -> R) (u : ndarray) : ndarray :=
  match u with
  | Scalar p => Scalar (f p)
  | Array ps => Array (List.map f ps)
  end.

(** All arrays of one call are images of the one argument, hence of one
    shape; the element-wise case pairs them position by position. *)
Definition broadcast (op : R -> R -> R) (u v : ndarray) : ndarray :=
  match u, v with
  | Scalar p, Scalar q => Scalar (op p q)
  | Scalar p, Array qs => Array (List.map (op p) qs)
  | Array ps, Scalar q => Array (List.map (fun p => op p q) ps)
  | Array ps, Array qs => Array (zip_with_R op ps qs)
  end.

Fixpoint lambdify (e : expr) (arg : ndarray) : ndarray :=
  match e with
  | Num q => Scalar (Q2R q)
  | X => arg
  | Add u v => broadcast Rplus (lambdify u arg) (lambdify v arg)
  | Mul u v => broadcast Rmult (lambdify u arg) (lambdify v arg)
  | Pow u n => ufunc (fun p => powerRZ p n) (lambdify u arg)
  | Exp u => ufunc exp (lambdify u arg)
  | Log u => ufunc ln (lambdify u arg)
  | Sin u => ufunc sin (lambdify u arg)
  | Cos u => ufunc cos (lambdify u arg)
  end.

(** The first dimension of a value once Matplotlib has made it at least
    one-dimensional. *)
Definition shape (u : ndarray) : nat :=
  match u with
  | Scalar _ => 1
  | Array vs => length vs
  end.

Definition to_list (u : ndarray) : list R :=
  match u with
  | Scalar v => [v]
  | Array vs => vs
  end.

(** ** [np.linspace(start, stop, num)] with the end point included:
    [arange(0, num) * step + start] where [step = (stop - start) / (num - 1)],
    and then [y[-1] = stop] when [num > 1]. *)

Definition set_last (y : list Q) (stop : Q) : list Q :=
  match y with
  | [] => []
  | _ :: _ => (removelast y ++ [stop])%list
  end.

Definition linspace (start stop : Q) (num : nat) : list Q :=
  let div := (num - 1)%nat in
  let step := ((stop - start) / inject_Z (Z.of_nat div))%Q in
  let y :=
    List.map (fun i => (inject_Z (Z.of_nat i) * step + start)%Q) (seq 0 num) in
  if (1 <? num)%nat then set_last y stop else y.

(** ** The Matplotlib figure

    [fig, axes = plt.subplots(3, 1, ...)] makes three axes.  The figure is
    the sequence of artists added so far, each with the index of the axes
    it was added to. *)

Inductive artist : Type :=
| Line2D (xdata : list Q) (ydata : list R) (linestyle : string)
    (label : string)
| VLine (x : Q) (linestyle : string) (alpha : Q).

Definition figure : Type := list (nat * artist).

Definition is_line (p : nat * artist) : bool :=
  match snd p with Line2D _ _ _ _ => true | VLine _ _ _ => false end.

Definition on_axes (i : nat) (p : nat * artist) : bool := Nat.eqb (fst p) i.

(** The curves of axes [i]. *)
Definition curves (i : nat) (fig : figure) : list artist :=
  List.map snd (List.filter (fun p => on_axes i p && is_line p) fig).

(** ** Statements of the script: they change the figure and may raise.
    What was drawn before an exception stays drawn. *)

Definition M (A : Type) : Type := figure -> result A * figure.

Definition ret {A : Type} (v : A) : M A := fun fig => (Ok v, fig).

Definition raise {A : Type} (e : exception) : M A := fun fig => (Raise e, fig).

Definition bind {A B : Type} (m : M A) (k : A -> M B) : M B :=
  fun fig =>
    match m fig with
    | (Ok v, fig') => k v fig'
    | (Raise e, fig') => (Raise e, fig')
    end.

Definition lift {A : Type} (r : result A) : M A := fun fig => (r, fig).

Declare Scope py_scope.
Delimit Scope py_scope with py.
Notation "v <- m ;; k" := (bind m (fun v => k))
  (at level 100, m at next level, right associativity) : py_scope.
Notation "m ;; k" := (bind m (fun _ => k))
  (at level 100, right associativity) : py_scope.

Local Open Scope py_scope.

(** [try: body / except Exception: pass] *)
Definition try_except_pass (body : M unit) : M unit :=
  fun fig =>
    match body fig with
    | (Ok _, fig') => (Ok tt, fig')
    | (Raise _, fig') => (Ok tt, fig')
    end.

(** [for v in l: body(v)] *)
Fixpoint for_each {A : Type} (l : list A) (body : A -> M unit) : M unit :=
  match l with
  | [] => ret tt
  | v :: l' => body v ;; for_each l' body
  end.

Definition add_artist (i : nat) (art : artist) : M unit :=
  fun fig => (Ok tt, (fig ++ [(i, art)])%list).

(** [axes[i].plot(xs, ys, linestyle=..., label=...)]: Matplotlib makes both
    arguments at least one-dimensional and refuses them when their first
    dimensions differ. *)
Definition plot (i : nat) (xs : list Q) (ys : ndarray)
    (linestyle label : string) : M unit :=
  if Nat.eqb (length xs) (shape ys) then
    add_artist i (Line2D xs (to_list ys) linestyle label)
  else raise (ValueError "x and y must have same first dimension").

(** [axes[i].axvline(v, linestyle=..., alpha=...)] *)
Definition axvline (i : nat) (v : Q) (linestyle : string) (alpha : Q)
  : M unit :=
  add_artist i (VLine v linestyle alpha).

(** ** A root returned by [sp.solve]: what the script observes of it.
    [is_real] is SymPy's three-valued assumption ([True], [False] or
    [None]); [to_float] is [float(cp)]. *)

Record root : Type := mk_root {
  is_real : result (option bool);
  to_float : result Q
}.

(** Python truth value of [cp.is_real]. *)
Definition truthy (t : option bool) : bool :=
  match t with Some true => true | _ => false end.

(** ** The pipeline of the script *)

Section Pipeline.

(** The values of the sidebar widgets that the plotting code reads as
    globals, and SymPy's solver. *)
Variable function_type : string.
Variables xmin xmax : Q.
Variable sp_solve : expr -> result (list root).

Definition x_vals : list Q := linspace xmin xmax 1000.

(** [sp.lambdify(x, e, "numpy")(x_vals)] *)
Definition sample (e : expr) : ndarray :=
  lambdify e (Array (List.map Q2R x_vals)).

(** [xmin <= v <= xmax] *)
Definition in_range (v : Q) : bool := Qle_bool xmin v && Qle_bool v xmax.

(** The body of the loops that mark roots:
    [if cp.is_real and xmin <= float(cp) <= xmax:
    axes[i].axvline(float(cp), ...); axes[j].axvline(float(cp), ...)]. *)
Definition mark_root (i j : nat) (linestyle : string) (alpha : Q)
    (cp : root) : M unit :=
  real <- lift (is_real cp) ;;
  if truthy real then
    v <- lift (to_float cp) ;;
    if in_range v then
      vi <- lift (to_float cp) ;;
      axvline i vi linestyle alpha ;;
      vj <- lift (to_float cp) ;;
      axvline j vj linestyle alpha
    else ret tt
  else ret tt.

(** The two root-marking blocks of [plot_country] are one text up to the
    expression solved, the second axes and the style of the marker:
    [try: for cp in sp.solve(e, x): ... / except Exception: pass]. *)
Definition mark_roots (i j : nat) (linestyle : string) (alpha : Q)
    (e : expr) : M unit :=
  try_except_pass
    (points <- lift (sp_solve e) ;;
     for_each points (mark_root i j linestyle alpha)).

(** Critical points: [f'(x) = 0], dashed, on axes 0 and 1. *)
Definition mark_critical_points (f_prime : expr) : M unit :=
  mark_roots 0 1 "--" 0.6 f_prime.

(** Inflection points: [f''(x) = 0], dotted, on axes 0 and 2. *)
Definition mark_inflection_points (f_double : expr) : M unit :=
  mark_roots 0 2 ":" 0.7 f_double.

(** [f_prime = sp.diff(f, x)] and [f_double = sp.diff(f_prime, x)] *)
Definition derivatives (f : expr) : expr * expr :=
  let f_prime := sp_diff f in
  let f_double := sp_diff f_prime in
  (f_prime, f_double).

Definition plot_country (country : string) (linestyle : string) : M unit :=
  params <- lift (getitem country_params country) ;;
  match build_function function_type params with
  | None => raise (ValueError "no expression to differentiate")
  | Some f =>
      let '(f_prime, f_double) := derivatives f in
      plot 0 x_vals (sample f) linestyle country ;;
      plot 1 x_vals (sample f_prime) linestyle country ;;
      plot 2 x_vals (sample f_double) linestyle country ;;
      mark_critical_points f_prime ;;
      mark_inflection_points f_double
  end.

(** The plotting part of the script: the primary country with the
    default line style, then the comparison country. *)
Definition script (comparison_mode : bool) (country_1 : string)
    (country_2 : option string) : M unit :=
  plot_country country_1 "-" ;;
  if comparison_mode && negb (bool_decide (country_2 = Some country_1))
  then
    match country_2 with
    | Some country => plot_country country "--"
    | None => raise (KeyError "None")
    end
  else ret tt.

End Pipeline.

(** [country_2] as the sidebar sets it: the second select box exists only
    in comparison mode. *)
Definition sidebar_country_2 (comparison_mode : bool) (choice : string)
  : option string :=
  if comparison_mode then Some choice else None.

(** The figure of [plt.subplots] before anything is drawn. *)
Definition subplots : figure := [].

(** ** Vocabulary of the properties *)

Definition exponential (p : params) : expr :=
  (Num (a p) * Exp (Num (b p) * X) + Num (c p))%E.

Definition logarithmic (p : params) : expr :=
  (Num (a p) * Log (Num (b p) * X) + Num (c p))%E.

Definition polynomial (p : params) : expr :=
  (Num (a p) * X ** 2 + Num (b p) * X + Num (c p))%E.

Definition trigonometric (p : params) : expr :=
  (Num (a p) * Sin (Num (b p) * X) + Num (c p))%E.

(** [g] is the derivative of [f] at every point where [f] is defined. *)
Definition is_derivative_of (g f : expr) : Prop :=
  forall x : R, defined f x -> derivable_pt_lim (denote f) x (denote g x).

(** Does the loop body raise at this root?  [cp.is_real] may raise; when
    it is true, [float(cp)] is called and may raise. *)
Definition root_raises (cp : root) : bool :=
  match is_real cp with
  | Raise _ => true
  | Ok t =>
      truthy t && match to_float cp with Raise _ => true | Ok _ => false end
  end.

(** The position of the marker of an accepted root: the root is real and
    its value lies in the display range. *)
Definition accepted (xmin xmax : Q) (cp : root) : option Q :=
  match is_real cp, to_float cp with
  | Ok (Some true), Ok v => if in_range xmin xmax v then Some v else None
  | _, _ => None
  end.

(** The roots that the loop reaches: those before the first one at which
    the body raises. *)
Fixpoint scanned (points : list root) : list root :=
  match points with
  | [] => []
  | cp :: rest => if root_raises cp then [] else cp :: scanned rest
  end.

(** The two markers of one accepted root. *)
Definition marks (i j : nat) (linestyle : string) (alpha : Q) (v : Q)
  : figure :=
  [(i, VLine v linestyle alpha); (j, VLine v linestyle alpha)].

Definition drawn (xmin xmax : Q) (i j : nat) (linestyle : string)
    (alpha : Q) (points : list root) : figure :=
  List.flat_map
    (fun cp =>
       match accepted xmin xmax cp with
       | Some v => marks i j linestyle alpha v
       | None => []
       end)
    points.

(** Positions of the vertical markers of axes [i]. *)
Definition marker_positions (i : nat) (fig : figure) : list Q :=
  List.flat_map
    (fun p =>
       match p with
       | (k, VLine v _ _) => if Nat.eqb k i then [v] else []
       | (_, Line2D _ _ _ _) => []
       end)
    fig.

(** Values of the accepted roots, in the order of the solver. *)
Definition accepted_values (xmin xmax : Q) (points : list root) : list Q :=
  List.flat_map
    (fun cp => match accepted xmin xmax cp with Some v => [v] | None => [] end)
    points.

(** Roots as the solver may return them. *)
Definition real_root (v : Q) : root := mk_root (Ok (Some true)) (Ok v).

Definition complex_root : root :=
  mk_root (Ok (Some false)) (Raise (TypeError "Cannot convert complex to float")).

Definition unconvertible_root : root :=
  mk_root (Ok (Some true))
    (Raise (TypeError "Cannot convert expression to float")).

(** A solver result on which the loop fails at its second root. *)
Definition stalling_solver (e : expr) : result (list root) :=
  Ok [real_root 3.5; unconvertible_root; real_root 4].

(** A solver result with a complex root and a root outside the range. *)
Definition mixed_solver (e : expr) : result (list root) :=
  Ok [real_root 1; complex_root; real_root 7; real_root 5].


(** The markers of one block, as [mark_roots_spec] gives them. *)
Definition solved_marks (xmin xmax : Q)
    (sp_solve : expr -> result (list root)) (i j : nat) (ls : string)
    (alpha : Q) (e : expr) : figure :=
  match sp_solve e with
  | Ok points => drawn xmin xmax i j ls alpha (scanned points)
  | Raise _ => []
  end.

(** What one call of [plot_country] adds to the figure, and its outcome. *)
Definition country_artists (function_type : string) (xmin xmax : Q)
    (sp_solve : expr -> result (list root)) (country linestyle : string)
  : result unit * figure :=
  match getitem country_params country with
  | Raise err => (Raise err, [])
  | Ok params =>
      match build_function function_type params with
      | None => (Raise (ValueError "no expression to differentiate"), [])
      | Some f =>
          let f_prime := sp_diff f in
          let f_double := sp_diff f_prime in
          let line i e :=
            (i, Line2D (x_vals xmin xmax) (to_list (sample xmin xmax e))
                  linestyle country) in
          let refused :=
            Raise (ValueError "x and y must have same first dimension") in
          if negb (has_x f) then (refused, [])
          else if negb (has_x f_prime) then (refused, [line 0%nat f])
          else if negb (has_x f_double) then
            (refused, [line 0%nat f; line 1%nat f_prime])
          else
            (Ok tt,
             [line 0%nat f; line 1%nat f_prime; line 2%nat f_double]
             ++ solved_marks xmin xmax sp_solve 0 1 "--" 0.6 f_prime
             ++ solved_marks xmin xmax sp_solve 0 2 ":" 0.7 f_double)
      end
  end.

(** Expressions of degree at most one in [x], as [sp_diff] leaves them. *)
Fixpoint affine (e : expr) : bool :=
  match e with
  | Num _ | X => true
  | Add u v => affine u && affine v
  | Mul (Num _) v => affine v
  | _ => negb (has_x e)
  end.

(** ** Vocabulary of the further properties *)

(** The function types whose three curves are arrays. *)
Definition array_types : list string :=
  [ "Exponential (Market Growth)";
    "Logarithmic (Diminishing Returns)";
    "Trigonometric (Seasonality)" ].


(** A solver that finds no solution. *)
Definition empty_solver (e : expr) : result (list root) := Ok [].

(** A solver that gives up. *)
Definition failing_solver (e : expr) : result (list root) :=
  Raise (NotImplementedError "no algorithms are implemented to solve equation").

(** The values that one root-marking block marks for [e]. *)
Definition solved_values (xmin xmax : Q)
    (sp_solve : expr -> result (list root)) (e : expr) : list Q :=
  match sp_solve e with
  | Ok points => accepted_values xmin xmax (scanned points)
  | Raise _ => []
  end.

(** [axes[i].legend()] lists the labels of the curves of the axes; the
    vertical markers are drawn without a label and are not listed. *)
Definition legend_labels (i : nat) (fig : figure) : list string :=
  List.flat_map
    (fun art =>
       match art with
       | Line2D _ _ _ label => [label]
       | VLine _ _ _ => []
       end)
    (curves i fig).

(** The three curves of one completed call of [plot_country]. *)
Definition country_lines (xmin xmax : Q) (f : expr)
    (country linestyle : string) : figure :=
  let xs := x_vals xmin xmax in
  let ys e := List.map (fun v => denote e (Q2R v)) xs in
  [ (0%nat, Line2D xs (ys f) linestyle country);
    (1%nat, Line2D xs (ys (sp_diff f)) linestyle country);
    (2%nat, Line2D xs (ys (sp_diff (sp_diff f))) linestyle country) ].

(** ** [float64] values and NumPy's functions on them

    A [float64] is a finite number, an infinity or [nan].  NumPy's
    functions follow IEEE 754 on the values that are not finite and do not
    raise on them (with NumPy's default error state a [RuntimeWarning] is
    issued).  Finite results are exact here; signed zeros, rounding and
    overflow are outside the model. *)

Inductive float64 : Type :=
| Fin (r : R)
| PInf
| NInf
| NaN.

Definition is_finite (y : float64) : bool :=
  match y with
  | Fin _ => true
  | PInf | NInf | NaN => false
  end.

Definition np_add (u v : float64) : float64 :=
  match u, v with
  | NaN, _ | _, NaN => NaN
  | Fin p, Fin q => Fin (p + q)
  | PInf, NInf | NInf, PInf => NaN
  | PInf, _ | _, PInf => PInf
  | NInf, _ | _, NInf => NInf
  end.

(** An infinity times a finite number: the sign of the product, and
    [nan] for [inf * 0]. *)
Definition inf_times (positive : bool) (r : R) : float64 :=
  match total_order_T r 0 with
  | inleft (left _) => if positive then NInf else PInf
  | inleft (right _) => NaN
  | inright _ => if positive then PInf else NInf
  end.

Definition np_multiply (u v : float64) : float64 :=
  match u, v with
  | NaN, _ | _, NaN => NaN
  | Fin p, Fin q => Fin (p * q)
  | PInf, Fin r | Fin r, PInf => inf_times true r
  | NInf, Fin r | Fin r, NInf => inf_times false r
  | PInf, PInf | NInf, NInf => PInf
  | PInf, NInf | NInf, PInf => NInf
  end.

(** [np.log]: [nan] below 0, [-inf] at 0. *)
Definition np_log (u : float64) : float64 :=
  match u with
  | Fin r =>
      match total_order_T r 0 with
      | inleft (left _) => NaN
      | inleft (right _) => NInf
      | inright _ => Fin (ln r)
      end
  | PInf => PInf
  | NInf | NaN => NaN
  end.

Definition np_exp (u : float64) : float64 :=
  match u with
  | Fin r => Fin (exp r)
  | PInf => PInf
  | NInf => Fin 0
  | NaN => NaN
  end.

Definition np_sin (u : float64) : float64 :=
  match u with
  | Fin r => Fin (sin r)
  | PInf | NInf | NaN => NaN
  end.

Definition np_cos (u : float64) : float64 :=
  match u with
  | Fin r => Fin (cos r)
  | PInf | NInf | NaN => NaN
  end.

(** [u ** n] for an integer [n]: anything to the power 0 is 1, and 0 to a
    negative power is [inf]. *)
Definition np_power (u : float64) (n : Z) : float64 :=
  if (n =? 0)%Z then Fin 1
  else
    match u with
    | Fin r =>
        if (n <? 0)%Z then
          if Req_EM_T r 0 then PInf else Fin (powerRZ r n)
        else Fin (powerRZ r n)
    | PInf => if (n <? 0)%Z then Fin 0 else PInf
    | NInf =>
        if (n <? 0)%Z then Fin 0 else if Z.even n then PInf else NInf
    | NaN => NaN
    end.

(** The value that the function generated by [sp.lambdify(x, e, "numpy")]
    computes at one element [x] of its argument. *)
Fixpoint np_value (e : expr) (x : float64) : float64 :=
  match e with
  | Num q => Fin (Q2R q)
  | X => x
  | Add u v => np_add (np_value u x) (np_value v x)
  | Mul u v => np_multiply (np_value u x) (np_value v x)
  | Pow u n => np_power (np_value u x) n
  | Exp u => np_exp (np_value u x)
  | Log u => np_log (np_value u x)
  | Sin u => np_sin (np_value u x)
  | Cos u => np_cos (np_value u x)
  end.

(** The output array for an array of sample points, when [x] occurs in
    the expression: one value for each point. *)
Definition np_sample (e : expr) (xs : list R) : list float64 :=
  List.map (fun x => np_value e (Fin x)) xs.

(** ** The solver within the tolerance 1e-9 *)




(** * Properties *)

(** ** Numbers *)

Lemma Q2R_Qred (q : Q) : Q2R (Qred q) = Q2R q.
Proof. apply Qeq_eqR, Qred_correct. Qed.

Lemma Q2R_zero : Q2R 0 = 0%R.
Proof. unfold Q2R; simpl; lra. Qed.

Lemma Q2R_one : Q2R 1 = 1%R.
Proof. unfold Q2R; simpl; lra. Qed.

Lemma Q2R_inject_Z (n : Z) : Q2R (inject_Z n) = IZR n.
Proof. unfold Q2R; simpl; lra. Qed.

Lemma Qeq_bool_Q2R (p q : Q) : Qeq_bool p q = true -> Q2R p = Q2R q.
Proof. intros H. apply Qeq_eqR, Qeq_bool_eq, H. Qed.

(** ** The evaluating constructors keep the meaning of the expression *)

Lemma denote_mk_add (u v : expr) (x : R) :
  denote (mk_add u v) x = (denote u x + denote v x)%R.
Proof.
  destruct u, v; simpl; try reflexivity;
    try (rewrite Q2R_Qred, Q2R_plus; reflexivity);
    match goal with
    | |- context [Qeq_bool ?p 0] =>
        destruct (Qeq_bool p 0) eqn:E; simpl; try reflexivity;
        apply Qeq_bool_Q2R in E; rewrite Q2R_zero in E; rewrite E; lra
    end.
Qed.

Lemma denote_scale (p : Q) (v : expr) (x : R) :
  denote (scale p v) x = (Q2R p * denote v x)%R.
Proof.
  unfold scale.
  destruct (Qeq_bool p 0) eqn:E0.
  - apply Qeq_bool_Q2R in E0. rewrite Q2R_zero in E0.
    simpl. rewrite E0, Q2R_zero. lra.
  - destruct (Qeq_bool p 1) eqn:E1; [|reflexivity].
    apply Qeq_bool_Q2R in E1. rewrite Q2R_one in E1. rewrite E1. lra.
Qed.

Ltac case_expr :=
  repeat match goal with
    | |- context [match ?e with Num _ => _ | _ => _ end] =>
        is_var e; destruct e
    end.

Lemma denote_mk_mul (u v : expr) (x : R) :
  denote (mk_mul u v) x = (denote u x * denote v x)%R.
Proof.
  unfold mk_mul. case_expr; simpl;
    rewrite ?denote_scale; simpl; rewrite ?Q2R_Qred, ?Q2R_mult; lra.
Qed.

Lemma denote_mk_pow (u : expr) (n : Z) (x : R) :
  denote (mk_pow u n) x = powerRZ (denote u x) n.
Proof.
  unfold mk_pow.
  destruct (Z.eqb_spec n 0) as [->|]; [simpl; apply Q2R_one|].
  destruct (Z.eqb_spec n 1) as [->|]; [|reflexivity].
  simpl. lra.
Qed.

Lemma defined_mk_add (u v : expr) (x : R) :
  defined u x -> defined v x -> defined (mk_add u v) x.
Proof.
  intros Hu Hv.
  destruct u, v; simpl in *; auto;
    match goal with
    | |- context [Qeq_bool ?p 0] => destruct (Qeq_bool p 0); simpl; auto
    end.
Qed.

Lemma defined_scale (p : Q) (v : expr) (x : R) :
  defined v x -> defined (scale p v) x.
Proof.
  intros Hv. unfold scale.
  destruct (Qeq_bool p 0); [exact I|].
  destruct (Qeq_bool p 1); simpl; auto.
Qed.

Lemma defined_mk_mul (u v : expr) (x : R) :
  defined u x -> defined v x -> defined (mk_mul u v) x.
Proof.
  intros Hu Hv. unfold mk_mul.
  case_expr; simpl in *; auto; apply defined_scale; simpl; tauto.
Qed.

(** ** [sp_diff] computes the derivative *)

Lemma dlim_value (f : R -> R) (x l l' : R) :
  derivable_pt_lim f x l -> l = l' -> derivable_pt_lim f x l'.
Proof. intros H <-. exact H. Qed.

Lemma derivable_pt_lim_powerRZ (n : Z) (x : R) :
  ((n < 0)%Z -> x <> 0%R) ->
  derivable_pt_lim (fun y => powerRZ y n) x (IZR n * powerRZ x (n - 1)%Z)%R.
Proof.
  intros Hx. destruct n as [|p|p].
  - apply dlim_value with (l := 0%R); [|lra].
    apply (derivable_pt_lim_const 1 x).
  - apply dlim_value with (l := (INR (Pos.to_nat p) * x ^ pred (Pos.to_nat p))%R).
    + apply (derivable_pt_lim_pow x (Pos.to_nat p)).
    + rewrite INR_IZR_INZ, positive_nat_Z, pow_powerRZ.
      do 2 f_equal. lia.
  - assert (Hx0 : x <> 0%R) by (apply Hx; lia).
    destruct (Pos2Nat.is_succ p) as [m Hm].
    assert (Hp : (Z.neg p - 1)%Z = Z.neg (Pos.of_nat (S (S m)))) by lia.
    rewrite Hp.
    assert (Hn : IZR (Z.neg p) = (- INR (S m))%R).
    { rewrite INR_IZR_INZ, <- opp_IZR. f_equal. lia. }
    rewrite Hn. cbn [powerRZ].
    rewrite Nat2Pos.id by lia.
    apply derivable_pt_lim_ext
      with (f := ((fct_cte 1) / (fun y => (y ^ Pos.to_nat p)%R))%F).
    { intros z. unfold div_fct, fct_cte. lra. }
    eapply dlim_value.
    + apply derivable_pt_lim_div.
      * apply derivable_pt_lim_const.
      * apply derivable_pt_lim_pow.
      * apply pow_nonzero, Hx0.
    + rewrite Hm. unfold fct_cte, Rsqr. cbn [pred].
      assert (Hm0 : (x ^ m)%R <> 0%R) by (apply pow_nonzero, Hx0).
      rewrite <- !tech_pow_Rmult.
      set (t := (x ^ m)%R) in *. set (k := INR (S m)).
      field. split; assumption.
Qed.

Lemma denote_sp_diff_pow (u : expr) (n : Z) (x : R) :
  denote (sp_diff (Pow u n)) x
  = (IZR n * powerRZ (denote u x) (n - 1)%Z * denote (sp_diff u) x)%R.
Proof.
  cbn [sp_diff]. rewrite !denote_mk_mul, denote_mk_pow.
  cbn [denote]. rewrite Q2R_inject_Z. reflexivity.
Qed.

Theorem sp_diff_correct (e : expr) (x : R) :
  defined e x -> derivable_pt_lim (denote e) x (denote (sp_diff e) x).
Proof.
  induction e as [q| |u IHu v IHv|u IHu v IHv|u IHu n|u IHu|u IHu|u IHu|u IHu];
    intros Hd.
  - apply dlim_value with (l := 0%R); [|simpl; symmetry; apply Q2R_zero].
    apply (derivable_pt_lim_const (Q2R q) x).
  - apply dlim_value with (l := 1%R); [|simpl; symmetry; apply Q2R_one].
    apply derivable_pt_lim_id.
  - destruct Hd as [Hu Hv]. cbn [sp_diff]. rewrite denote_mk_add.
    apply (derivable_pt_lim_plus (denote u) (denote v)); auto.
  - destruct Hd as [Hu Hv]. cbn [sp_diff].
    rewrite denote_mk_add, !denote_mk_mul.
    apply (derivable_pt_lim_mult (denote u) (denote v)); auto.
  - destruct Hd as [Hu Hn]. rewrite denote_sp_diff_pow.
    apply (derivable_pt_lim_comp (denote u) (fun y => powerRZ y n)).
    + auto.
    + apply derivable_pt_lim_powerRZ, Hn.
  - simpl in Hd. cbn [sp_diff]. rewrite denote_mk_mul.
    apply (derivable_pt_lim_comp (denote u) exp); auto.
    apply derivable_pt_lim_exp.
  - destruct Hd as [Hu Hpos]. cbn [sp_diff]. rewrite denote_mk_mul.
    eapply dlim_value.
    + apply (derivable_pt_lim_comp (denote u) ln); [auto|].
      apply derivable_pt_lim_ln, Hpos.
    + simpl. rewrite Rmult_1_r. apply Rmult_comm.
  - simpl in Hd. cbn [sp_diff]. rewrite denote_mk_mul.
    apply (derivable_pt_lim_comp (denote u) sin); auto.
    apply derivable_pt_lim_sin.
  - simpl in Hd. cbn [sp_diff]. rewrite !denote_mk_mul.
    eapply dlim_value.
    + apply (derivable_pt_lim_comp (denote u) cos); [auto|].
      apply derivable_pt_lim_cos.
    + simpl. replace (Q2R (-1)) with (-1)%R by (unfold Q2R; simpl; lra). lra.
Qed.

Lemma defined_sp_diff (e : expr) (x : R) :
  defined e x -> defined (sp_diff e) x.
Proof.
  induction e as [q| |u IHu v IHv|u IHu v IHv|u IHu n|u IHu|u IHu|u IHu|u IHu];
    intros Hd; cbn [sp_diff]; cbn [defined] in Hd; try exact I.
  - apply defined_mk_add; tauto.
  - apply defined_mk_add; apply defined_mk_mul; tauto.
  - destruct Hd as [Hu Hn]. apply defined_mk_mul; [|auto].
    destruct (Z.eq_dec n 0%Z) as [->|Hn0]; [exact I|].
    apply defined_mk_mul; [exact I|].
    unfold mk_pow.
    destruct (n - 1 =? 0)%Z; [exact I|].
    destruct (n - 1 =? 1)%Z; [exact Hu|].
    split; [exact Hu|]. intros Hlt. apply Hn. lia.
  - apply defined_mk_mul; cbn [defined]; auto.
  - destruct Hd as [Hu Hpos]. apply defined_mk_mul; cbn [defined]; auto.
    split; [exact Hu|]. intros _. lra.
  - apply defined_mk_mul; cbn [defined]; auto.
  - apply defined_mk_mul; [exact I|]. apply defined_mk_mul; cbn [defined]; auto.
Qed.

(** Two expressions with the same meaning have the same derivative. *)
Lemma sp_diff_ext (e g : expr) (x : R) :
  (forall z, denote e z = denote g z) ->
  defined e x -> defined g x ->
  denote (sp_diff e) x = denote (sp_diff g) x.
Proof.
  intros Heq He Hg.
  apply (uniqueness_limite (denote e) x).
  - apply sp_diff_correct, He.
  - apply derivable_pt_lim_ext with (f := denote g).
    + intros z. symmetry. apply Heq.
    + apply sp_diff_correct, Hg.
Qed.

Ltac denote_diff :=
  cbn [sp_diff];
  rewrite ?denote_mk_add, ?denote_mk_mul, ?denote_mk_pow;
  cbn [denote];
  rewrite ?denote_mk_add, ?denote_mk_mul, ?denote_mk_pow;
  cbn [denote];
  rewrite ?Q2R_mult, ?Q2R_zero, ?Q2R_one, ?Q2R_inject_Z.

(** *** The four templates *)

Lemma build_function_cases (function_type : string) (p : params) (f : expr) :
  build_function function_type p = Some f ->
  (function_type = "Exponential (Market Growth)" /\ f = exponential p)
  \/ (function_type = "Logarithmic (Diminishing Returns)"
      /\ f = logarithmic p)
  \/ (function_type = "Polynomial (Cost Structure)" /\ f = polynomial p)
  \/ (function_type = "Trigonometric (Seasonality)" /\ f = trigonometric p).
Proof.
  unfold build_function.
  destruct (String.eqb_spec function_type "Exponential (Market Growth)");
    [intros [= <-]; auto|].
  destruct (String.eqb_spec function_type "Logarithmic (Diminishing Returns)");
    [intros [= <-]; auto|].
  destruct (String.eqb_spec function_type "Polynomial (Cost Structure)");
    [intros [= <-]; auto|].
  destruct (String.eqb_spec function_type "Trigonometric (Seasonality)");
    [intros [= <-]; auto 6|].
  discriminate.
Qed.

Lemma build_function_None (function_type : string) (p : params) :
  ~ In function_type function_types ->
  build_function function_type p = None.
Proof.
  intros Hn. destruct (build_function function_type p) as [f|] eqn:E; auto.
  exfalso. apply Hn.
  destruct (build_function_cases _ _ _ E) as [[-> _]|[[-> _]|[[-> _]|[-> _]]]];
    simpl; auto.
Qed.

(** First derivatives, as real functions. *)
Lemma exponential_prime (p : params) (x : R) :
  denote (sp_diff (exponential p)) x
  = (Q2R (a p) * Q2R (b p) * exp (Q2R (b p) * x))%R.
Proof. unfold exponential. denote_diff. lra. Qed.

Lemma logarithmic_prime (p : params) (x : R) :
  denote (sp_diff (logarithmic p)) x
  = (Q2R (a p) * (Q2R (b p) * / (Q2R (b p) * x)))%R.
Proof. unfold logarithmic. denote_diff. simpl. rewrite !Rmult_1_r. ring. Qed.

Lemma polynomial_prime (p : params) (x : R) :
  denote (sp_diff (polynomial p)) x = (2 * Q2R (a p) * x + Q2R (b p))%R.
Proof. unfold polynomial. denote_diff. simpl. lra. Qed.

Lemma trigonometric_prime (p : params) (x : R) :
  denote (sp_diff (trigonometric p)) x
  = (Q2R (a p) * Q2R (b p) * cos (Q2R (b p) * x))%R.
Proof. unfold trigonometric. denote_diff. lra. Qed.

Lemma defined_exponential (p : params) (x : R) : defined (exponential p) x.
Proof. simpl. tauto. Qed.

Lemma defined_polynomial (p : params) (x : R) : defined (polynomial p) x.
Proof. simpl. intuition lia. Qed.

Lemma defined_trigonometric (p : params) (x : R) :
  defined (trigonometric p) x.
Proof. simpl. tauto. Qed.

Lemma defined_logarithmic (p : params) (x : R) :
  defined (logarithmic p) x <-> (0 < Q2R (b p) * x)%R.
Proof. simpl. tauto. Qed.

(** Second derivatives, as real functions. *)
Lemma exponential_double (p : params) (x : R) :
  denote (sp_diff (sp_diff (exponential p))) x
  = (Q2R (a p) * Q2R (b p) * Q2R (b p) * exp (Q2R (b p) * x))%R.
Proof.
  rewrite (sp_diff_ext _ (Num (a p * b p) * Exp (Num (b p) * X))%E).
  - denote_diff. lra.
  - intros z. rewrite exponential_prime. simpl. rewrite Q2R_mult. reflexivity.
  - apply defined_sp_diff, defined_exponential.
  - simpl. tauto.
Qed.

Lemma polynomial_double (p : params) (x : R) :
  denote (sp_diff (sp_diff (polynomial p))) x = (2 * Q2R (a p))%R.
Proof.
  rewrite (sp_diff_ext _ (Num (inject_Z 2 * a p) * X + Num (b p))%E).
  - denote_diff. lra.
  - intros z. rewrite polynomial_prime. simpl.
    rewrite Q2R_mult, Q2R_inject_Z. reflexivity.
  - apply defined_sp_diff, defined_polynomial.
  - simpl. tauto.
Qed.

Lemma trigonometric_double (p : params) (x : R) :
  denote (sp_diff (sp_diff (trigonometric p))) x
  = (- (Q2R (a p) * Q2R (b p) * Q2R (b p)) * sin (Q2R (b p) * x))%R.
Proof.
  rewrite (sp_diff_ext _ (Num (a p * b p) * Cos (Num (b p) * X))%E).
  - denote_diff. replace (Q2R (-1)) with (-1)%R by (unfold Q2R; simpl; lra).
    lra.
  - intros z. rewrite trigonometric_prime. simpl. rewrite Q2R_mult.
    reflexivity.
  - apply defined_sp_diff, defined_trigonometric.
  - simpl. tauto.
Qed.

Lemma logarithmic_prime_closed (p : params) (x : R) :
  (0 < Q2R (b p) * x)%R ->
  denote (sp_diff (logarithmic p)) x = (Q2R (a p) / x)%R.
Proof.
  intros Hpos. rewrite logarithmic_prime.
  assert (Q2R (b p) <> 0%R /\ x <> 0%R) as [Hb Hx] by (split; nra).
  field. split; assumption.
Qed.

Lemma logarithmic_double_closed (p : params) (x : R) :
  (0 < Q2R (b p) * x)%R ->
  denote (sp_diff (sp_diff (logarithmic p))) x = (- Q2R (a p) / (x * x))%R.
Proof.
  intros Hpos.
  assert (Q2R (b p) <> 0%R /\ x <> 0%R) as [Hb Hx] by (split; nra).
  rewrite (sp_diff_ext _ (Num (a p * b p) * (Num (b p) * X) ** (-1))%E).
  - denote_diff. simpl. rewrite !Rmult_1_r. field. split; assumption.
  - intros z. rewrite logarithmic_prime. simpl.
    rewrite Q2R_mult, !Rmult_1_r. ring.
  - apply defined_sp_diff, defined_logarithmic, Hpos.
  - simpl. split; [tauto|]. split; [tauto|]. intros _. nra.
Qed.

(** C1: for every country profile (a, b, c), each of the four function
    types is instantiated to the template of the catalogue table, as an
    expression and as a real function: Exponential a*e^(b*x) + c,
    Logarithmic a*ln(b*x) + c, Polynomial a*x^2 + b*x + c and
    Trigonometric a*sin(b*x) + c. *)
Theorem C1_build_function_templates (p : params) :
  (build_function "Exponential (Market Growth)" p
   = Some (Num (a p) * Exp (Num (b p) * X) + Num (c p))%E
   /\ forall x : R,
       denote (Num (a p) * Exp (Num (b p) * X) + Num (c p)) x
       = (Q2R (a p) * exp (Q2R (b p) * x) + Q2R (c p))%R)
  /\ (build_function "Logarithmic (Diminishing Returns)" p
      = Some (Num (a p) * Log (Num (b p) * X) + Num (c p))%E
      /\ forall x : R,
          denote (Num (a p) * Log (Num (b p) * X) + Num (c p)) x
          = (Q2R (a p) * ln (Q2R (b p) * x) + Q2R (c p))%R)
  /\ (build_function "Polynomial (Cost Structure)" p
      = Some (Num (a p) * X ** 2 + Num (b p) * X + Num (c p))%E
      /\ forall x : R,
          denote (Num (a p) * X ** 2 + Num (b p) * X + Num (c p)) x
          = (Q2R (a p) * x ^ 2 + Q2R (b p) * x + Q2R (c p))%R)
  /\ (build_function "Trigonometric (Seasonality)" p
      = Some (Num (a p) * Sin (Num (b p) * X) + Num (c p))%E
      /\ forall x : R,
          denote (Num (a p) * Sin (Num (b p) * X) + Num (c p)) x
          = (Q2R (a p) * sin (Q2R (b p) * x) + Q2R (c p))%R).
Proof.
  repeat split; intros; reflexivity.
Qed.

(** C2: for the expression [f] that any function type builds from any
    country profile, the pair computed by the pipeline is
    [(sp_diff f, sp_diff (sp_diff f))]; its first component is the
    derivative of [f] and its second component the derivative of the first,
    wherever [f] is defined (everywhere, except that the logarithmic
    template needs [b*x > 0]).  For the polynomial template
    f' = 2*a*x + b and f'' = 2*a. *)
Theorem C2_derivative_pair (function_type : string) (p : params) (f : expr) :
  build_function function_type p = Some f ->
  derivatives f = (sp_diff f, sp_diff (sp_diff f))
  /\ is_derivative_of (fst (derivatives f)) f
  /\ is_derivative_of (snd (derivatives f)) (fst (derivatives f))
  /\ (forall x : R,
        defined f x ->
        derivable_pt_lim (denote (fst (derivatives f))) x
          (denote (snd (derivatives f)) x))
  /\ (function_type <> "Logarithmic (Diminishing Returns)" ->
      forall x : R, defined f x)
  /\ (function_type = "Logarithmic (Diminishing Returns)" ->
      forall x : R, defined f x <-> (0 < Q2R (b p) * x)%R)
  /\ (function_type = "Polynomial (Cost Structure)" ->
      forall x : R,
        denote (fst (derivatives f)) x = (2 * Q2R (a p) * x + Q2R (b p))%R
        /\ denote (snd (derivatives f)) x = (2 * Q2R (a p))%R).
Proof.
  intros Hf. unfold derivatives. cbn [fst snd].
  split; [reflexivity|].
  split; [intros x Hx; apply sp_diff_correct, Hx|].
  split; [intros x Hx; apply sp_diff_correct, Hx|].
  split; [intros x Hx; apply sp_diff_correct, defined_sp_diff, Hx|].
  destruct (build_function_cases _ _ _ Hf)
    as [[-> ->]|[[-> ->]|[[-> ->]|[-> ->]]]].
  - split; [intros _; apply defined_exponential|]. split; discriminate.
  - split; [intros Hne; contradiction Hne; reflexivity|].
    split; [intros _ x; apply defined_logarithmic|discriminate].
  - split; [intros _; apply defined_polynomial|].
    split; [discriminate|]. intros _ x.
    split; [apply polynomial_prime|apply polynomial_double].
  - split; [intros _; apply defined_trigonometric|]. split; discriminate.
Qed.

Lemma C2_derivative_pair_witness :
  build_function "Polynomial (Cost Structure)" (mk_params 1.2 0.45 3)
  = Some (polynomial (mk_params 1.2 0.45 3))
  /\ derivatives (polynomial (mk_params 1.2 0.45 3))
     = ((Num (12 # 5) * X + Num (9 # 20))%E, Num (12 # 5))
  /\ forall x : R,
      denote (fst (derivatives (polynomial (mk_params 1.2 0.45 3)))) x
      = (2 * Q2R 1.2 * x + Q2R 0.45)%R
      /\ denote (snd (derivatives (polynomial (mk_params 1.2 0.45 3)))) x
         = (2 * Q2R 1.2)%R.
Proof.
  split; [reflexivity|]. split; [reflexivity|].
  destruct (C2_derivative_pair "Polynomial (Cost Structure)"
              (mk_params 1.2 0.45 3) (polynomial (mk_params 1.2 0.45 3))
              eq_refl) as (_ & _ & _ & _ & _ & _ & Hpoly).
  exact (Hpoly eq_refl).
Defined.

(** ** Sampling: [lambdify] and [linspace] *)

Lemma denote_no_x (e : expr) (x y : R) :
  has_x e = false -> denote e x = denote e y.
Proof.
  induction e as [q| |u IHu v IHv|u IHu v IHv|u IHu n|u IHu|u IHu|u IHu|u IHu];
    simpl; intros H; try discriminate; try reflexivity;
    try (apply orb_false_elim in H as [Hu Hv]; rewrite IHu, IHv by assumption;
         reflexivity);
    rewrite IHu by assumption; reflexivity.
Qed.

Lemma zip_with_R_map (op : R -> R -> R) (f g : R -> R) (xs : list R) :
  zip_with_R op (List.map f xs) (List.map g xs)
  = List.map (fun x => op (f x) (g x)) xs.
Proof. induction xs as [|x xs IH]; simpl; [|rewrite IH]; reflexivity. Qed.

(** On an array argument the generated function gives the array of the
    values of the expression when [x] occurs in it, and a scalar when it
    does not. *)
Lemma lambdify_Array (e : expr) (xs : list R) :
  lambdify e (Array xs)
  = if has_x e then Array (List.map (denote e) xs) else Scalar (denote e 0%R).
Proof.
  induction e as [q| |u IHu v IHv|u IHu v IHv|u IHu n|u IHu|u IHu|u IHu|u IHu];
    cbn [lambdify has_x];
    try reflexivity;
    try (rewrite IHu; destruct (has_x u); cbn [ufunc denote];
         rewrite ?List.map_map; reflexivity).
  - rewrite List.map_id. reflexivity.
  - rewrite IHu, IHv.
    destruct (has_x u) eqn:Eu, (has_x v) eqn:Ev; cbn [broadcast orb denote];
      rewrite ?zip_with_R_map, ?List.map_map; try reflexivity; f_equal;
      apply List.map_ext; intros x.
    + rewrite (denote_no_x v x 0%R Ev). reflexivity.
    + rewrite (denote_no_x u x 0%R Eu). reflexivity.
  - rewrite IHu, IHv.
    destruct (has_x u) eqn:Eu, (has_x v) eqn:Ev; cbn [broadcast orb denote];
      rewrite ?zip_with_R_map, ?List.map_map; try reflexivity; f_equal;
      apply List.map_ext; intros x.
    + rewrite (denote_no_x v x 0%R Ev). reflexivity.
    + rewrite (denote_no_x u x 0%R Eu). reflexivity.
Qed.

Lemma length_set_last (y : list Q) (stop : Q) :
  length (set_last y stop) = length y.
Proof.
  destruct y as [|q y]; [reflexivity|].
  unfold set_last. rewrite List.length_app, removelast_firstn_len.
  rewrite List.length_firstn. simpl. lia.
Qed.

Lemma length_linspace (start stop : Q) (num : nat) :
  length (linspace start stop num) = num.
Proof.
  unfold linspace. destruct (1 <? num)%nat;
    rewrite ?length_set_last, List.length_map, List.length_seq; reflexivity.
Qed.

Lemma linspace_last (start stop : Q) (num : nat) (d : Q) :
  (1 < num)%nat -> List.last (linspace start stop num) d = stop.
Proof.
  intros Hnum. unfold linspace.
  apply Nat.ltb_lt in Hnum as Hb. rewrite Hb.
  destruct num as [|n]; [lia|].
  cbn [seq List.map set_last]. apply List.last_last.
Qed.

(** Sample [i] is [start + i * (stop - start) / (num - 1)]. *)
Lemma linspace_nth (start stop : Q) (num i : nat) (d : Q) :
  (1 < num)%nat -> (i < num)%nat ->
  (List.nth i (linspace start stop num) d
   == start + inject_Z (Z.of_nat i)
              * ((stop - start) / inject_Z (Z.of_nat (num - 1))))%Q.
Proof.
  intros Hnum Hi. unfold linspace.
  apply Nat.ltb_lt in Hnum as Hb. rewrite Hb.
  set (step := ((stop - start) / inject_Z (Z.of_nat (num - 1)))%Q).
  set (y := List.map (fun k => (inject_Z (Z.of_nat k) * step + start)%Q)
              (seq 0 num)).
  assert (Hlen : length y = num)
    by (unfold y; rewrite List.length_map, List.length_seq; reflexivity).
  assert (Hy : y <> []) by (intros E; rewrite E in Hlen; simpl in Hlen; lia).
  destruct y as [|q y'] eqn:Ey; [contradiction|].
  cbn [set_last]. rewrite <- Ey in *. clear Hy.
  rewrite removelast_firstn_len, Hlen.
  destruct (Nat.eq_dec i (num - 1)) as [->|Hne].
  - rewrite List.app_nth2 by (rewrite List.length_firstn; lia).
    rewrite List.length_firstn, Hlen.
    replace (num - 1 - Nat.min (Nat.pred num) num)%nat with 0%nat by lia.
    cbn [List.nth]. unfold step.
    assert (Hnz : ~ (inject_Z (Z.of_nat (num - 1)) == 0)%Q).
    { unfold Qeq. simpl. lia. }
    field. exact Hnz.
  - rewrite List.app_nth1 by (rewrite List.length_firstn; lia).
    rewrite List.nth_firstn.
    assert (Hlt : (i <? Nat.pred num)%nat = true) by (apply Nat.ltb_lt; lia).
    rewrite Hlt.
    rewrite List.nth_indep
      with (d' := (inject_Z (Z.of_nat 0) * step + start)%Q) by lia.
    rewrite Ey at 1. rewrite <- Ey. unfold y at 1.
    rewrite (List.map_nth (fun k => (inject_Z (Z.of_nat k) * step + start)%Q)).
    rewrite List.seq_nth by lia. simpl Nat.add. ring.
Qed.

Lemma linspace_first (start stop : Q) (num : nat) (d : Q) :
  (1 < num)%nat -> (List.nth 0 (linspace start stop num) d == start)%Q.
Proof.
  intros Hnum. rewrite linspace_nth by lia. simpl. ring.
Qed.

(** ** The root-marking blocks *)

Section MarkRoots.

Variables xmin xmax : Q.
Variable sp_solve : expr -> result (list root).
Variables i j : nat.
Variable linestyle : string.
Variable alpha : Q.

Lemma mark_root_ok (cp : root) (fig : figure) :
  root_raises cp = false ->
  mark_root xmin xmax i j linestyle alpha cp fig
  = (Ok tt,
     (fig ++ match accepted xmin xmax cp with
             | Some v => marks i j linestyle alpha v
             | None => []
             end)%list).
Proof.
  unfold root_raises, accepted, mark_root, bind, lift.
  destruct (is_real cp) as [[[|]|]|e]; cbn [truthy andb];
    try discriminate; intros H;
    try (unfold ret; rewrite List.app_nil_r; reflexivity).
  destruct (to_float cp) as [v|e]; [|discriminate].
  destruct (in_range xmin xmax v).
  - unfold axvline, add_artist, marks. rewrite <- List.app_assoc.
    reflexivity.
  - unfold ret. rewrite List.app_nil_r. reflexivity.
Qed.

Lemma mark_root_raises (cp : root) (fig : figure) :
  root_raises cp = true ->
  exists e, mark_root xmin xmax i j linestyle alpha cp fig = (Raise e, fig).
Proof.
  unfold root_raises, mark_root, bind, lift.
  destruct (is_real cp) as [[[|]|]|e]; cbn [truthy andb];
    try discriminate; intros H; [|eauto].
  destruct (to_float cp) as [v|e]; [discriminate|eauto].
Qed.

(** The loop draws the markers of the accepted roots among those it
    reaches, in order. *)
Lemma for_each_mark_root (points : list root) (fig : figure) :
  snd (for_each points (mark_root xmin xmax i j linestyle alpha) fig)
  = (fig ++ drawn xmin xmax i j linestyle alpha (scanned points))%list.
Proof.
  revert fig. induction points as [|cp rest IH]; intros fig.
  - simpl. rewrite List.app_nil_r. reflexivity.
  - cbn [for_each scanned]. unfold bind at 1.
    destruct (root_raises cp) eqn:E.
    + destruct (mark_root_raises cp fig E) as [e ->].
      simpl. rewrite List.app_nil_r. reflexivity.
    + rewrite (mark_root_ok cp fig E), IH.
      cbn [drawn List.flat_map]. rewrite List.app_assoc. reflexivity.
Qed.

Lemma for_each_mark_root_ok (points : list root) (fig : figure) :
  List.forallb (fun cp => negb (root_raises cp)) points = true ->
  fst (for_each points (mark_root xmin xmax i j linestyle alpha) fig)
  = Ok tt.
Proof.
  revert fig. induction points as [|cp rest IH]; intros fig H.
  - reflexivity.
  - cbn [List.forallb] in H. apply andb_prop in H as [Hcp Hrest].
    apply negb_true_iff in Hcp.
    cbn [for_each]. unfold bind at 1.
    rewrite (mark_root_ok cp fig Hcp). apply IH, Hrest.
Qed.

(** The whole block: it never raises; when the solver raises nothing is
    drawn. *)
Theorem mark_roots_spec (e : expr) (fig : figure) :
  mark_roots xmin xmax sp_solve i j linestyle alpha e fig
  = (Ok tt,
     match sp_solve e with
     | Ok points =>
         (fig ++ drawn xmin xmax i j linestyle alpha (scanned points))%list
     | Raise _ => fig
     end).
Proof.
  unfold mark_roots, try_except_pass, bind at 1, lift.
  destruct (sp_solve e) as [points|err]; [|reflexivity].
  pose proof (for_each_mark_root points fig) as Hs.
  destruct (for_each points _ fig) as [[[]|err] fig']; simpl in Hs;
    rewrite Hs; reflexivity.
Qed.

End MarkRoots.

Lemma marker_positions_app (i : nat) (fig fig' : figure) :
  marker_positions i (fig ++ fig')
  = (marker_positions i fig ++ marker_positions i fig')%list.
Proof. apply List.flat_map_app. Qed.

Lemma marker_positions_drawn (xmin xmax : Q) (i j k : nat) (ls : string)
    (alpha : Q) (points : list root) :
  i <> j -> k = i \/ k = j ->
  marker_positions k (drawn xmin xmax i j ls alpha points)
  = accepted_values xmin xmax points.
Proof.
  intros Hij Hk. induction points as [|cp rest IH]; [reflexivity|].
  cbn [drawn accepted_values List.flat_map].
  fold (drawn xmin xmax i j ls alpha rest).
  fold (accepted_values xmin xmax rest).
  rewrite marker_positions_app, IH. f_equal.
  destruct (accepted xmin xmax cp) as [v|]; [|reflexivity].
  unfold marks, marker_positions. cbn [List.flat_map].
  destruct Hk as [-> | ->].
  - rewrite Nat.eqb_refl.
    destruct (Nat.eqb_spec j i); [congruence|]. reflexivity.
  - rewrite Nat.eqb_refl.
    destruct (Nat.eqb_spec i j); [congruence|]. reflexivity.
Qed.

Lemma marker_positions_drawn_other (xmin xmax : Q) (i j k : nat)
    (ls : string) (alpha : Q) (points : list root) :
  k <> i -> k <> j ->
  marker_positions k (drawn xmin xmax i j ls alpha points) = [].
Proof.
  intros Hi Hj. induction points as [|cp rest IH]; [reflexivity|].
  cbn [drawn List.flat_map]. fold (drawn xmin xmax i j ls alpha rest).
  rewrite marker_positions_app, IH, List.app_nil_r.
  destruct (accepted xmin xmax cp) as [v|]; [|reflexivity].
  unfold marks, marker_positions. cbn [List.flat_map].
  destruct (Nat.eqb_spec i k); [congruence|].
  destruct (Nat.eqb_spec j k); [congruence|]. reflexivity.
Qed.

Lemma in_range_iff (xmin xmax v : Q) :
  in_range xmin xmax v = true <-> (xmin <= v)%Q /\ (v <= xmax)%Q.
Proof.
  unfold in_range. rewrite andb_true_iff, !Qle_bool_iff. reflexivity.
Qed.

Lemma accepted_Some (xmin xmax : Q) (cp : root) (v : Q) :
  accepted xmin xmax cp = Some v
  <-> is_real cp = Ok (Some true) /\ to_float cp = Ok v
      /\ (xmin <= v)%Q /\ (v <= xmax)%Q.
Proof.
  unfold accepted. rewrite <- in_range_iff.
  destruct (is_real cp) as [[[|]|]|e]; try (split; [discriminate|];
    intros [H _]; discriminate).
  destruct (to_float cp) as [w|e]; [|split; [discriminate|];
    intros (_ & H & _); discriminate].
  destruct (in_range xmin xmax w) eqn:E.
  - split.
    + intros [= <-]. auto.
    + intros (_ & [= <-] & _). reflexivity.
  - split; [discriminate|]. intros (_ & [= <-] & H). congruence.
Qed.

Lemma In_accepted_values (xmin xmax : Q) (points : list root) (v : Q) :
  In v (accepted_values xmin xmax points)
  <-> exists cp, In cp points /\ is_real cp = Ok (Some true)
                 /\ to_float cp = Ok v /\ (xmin <= v)%Q /\ (v <= xmax)%Q.
Proof.
  unfold accepted_values. rewrite List.in_flat_map. split.
  - intros (cp & Hin & Hv). exists cp. split; [exact Hin|].
    apply accepted_Some.
    destruct (accepted xmin xmax cp) as [w|]; [|contradiction].
    destruct Hv as [->|[]]. reflexivity.
  - intros (cp & Hin & H). exists cp. split; [exact Hin|].
    apply accepted_Some in H. rewrite H. left. reflexivity.
Qed.

Lemma scanned_all (points : list root) :
  (forall cp, In cp points -> root_raises cp = false) ->
  scanned points = points.
Proof.
  induction points as [|cp rest IH]; intros H; [reflexivity|].
  cbn [scanned]. rewrite (H cp) by (left; reflexivity).
  f_equal. apply IH. intros r Hr. apply H. right. exact Hr.
Qed.

Lemma scanned_prefix (pre post : list root) (cp : root) :
  (forall r, In r pre -> root_raises r = false) ->
  root_raises cp = true ->
  scanned (pre ++ cp :: post) = pre.
Proof.
  intros Hpre Hcp. induction pre as [|r pre IH]; cbn [scanned app].
  - rewrite Hcp. reflexivity.
  - rewrite (Hpre r) by (left; reflexivity). f_equal.
    apply IH. intros r' Hr'. apply Hpre. right. exact Hr'.
Qed.

Lemma accepted_values_app (xmin xmax : Q) (l l' : list root) :
  accepted_values xmin xmax (l ++ l')
  = (accepted_values xmin xmax l ++ accepted_values xmin xmax l')%list.
Proof. apply List.flat_map_app. Qed.

(** C4: when the solver returns its roots and neither the classification
    nor the conversion of any of them raises, the markers that the
    critical-point block adds (on axes 0 and 1), and likewise those that
    the inflection-point block adds (on axes 0 and 2), are at exactly the
    values of the returned roots that are real and lie in [xmin, xmax],
    both ends included; roots that are not real are left out. *)
Theorem C4_marked_roots_exact (xmin xmax : Q)
    (sp_solve : expr -> result (list root)) (e : expr) (points : list root)
    (fig : figure) :
  sp_solve e = Ok points ->
  (forall cp, In cp points -> root_raises cp = false) ->
  exists crit infl : figure,
    snd (mark_critical_points xmin xmax sp_solve e fig) = fig ++ crit
    /\ snd (mark_inflection_points xmin xmax sp_solve e fig) = fig ++ infl
    /\ forall v : Q,
        let marked :=
          exists cp, In cp points /\ is_real cp = Ok (Some true)
                     /\ to_float cp = Ok v /\ (xmin <= v)%Q /\ (v <= xmax)%Q in
        (In v (marker_positions 0 crit) <-> marked)
        /\ (In v (marker_positions 1 crit) <-> marked)
        /\ (In v (marker_positions 0 infl) <-> marked)
        /\ (In v (marker_positions 2 infl) <-> marked).
Proof.
  intros Hsolve Hok.
  exists (drawn xmin xmax 0 1 "--" 0.6 points),
         (drawn xmin xmax 0 2 ":" 0.7 points).
  unfold mark_critical_points, mark_inflection_points.
  rewrite !mark_roots_spec, Hsolve, (scanned_all points Hok). cbn [snd].
  split; [reflexivity|]. split; [reflexivity|].
  intros v. cbv zeta.
  rewrite !marker_positions_drawn by (auto; lia).
  pose proof (In_accepted_values xmin xmax points v) as H.
  repeat split; apply H.
Qed.

Lemma C4_marked_roots_exact_witness :
  mixed_solver (Num 0) = Ok [real_root 1; complex_root; real_root 7; real_root 5]
  /\ marker_positions 0
       (snd (mark_critical_points 0.1 5 mixed_solver (Num 0) subplots))
     = [1%Q; 5%Q]
  /\ exists crit infl : figure,
      snd (mark_critical_points 0.1 5 mixed_solver (Num 0) subplots)
      = subplots ++ crit
      /\ snd (mark_inflection_points 0.1 5 mixed_solver (Num 0) subplots)
         = subplots ++ infl
      /\ forall v : Q,
          let marked :=
            exists cp,
              In cp [real_root 1; complex_root; real_root 7; real_root 5]
              /\ is_real cp = Ok (Some true)
              /\ to_float cp = Ok v /\ (0.1 <= v)%Q /\ (v <= 5)%Q in
          (In v (marker_positions 0 crit) <-> marked)
          /\ (In v (marker_positions 1 crit) <-> marked)
          /\ (In v (marker_positions 0 infl) <-> marked)
          /\ (In v (marker_positions 2 infl) <-> marked).
Proof.
  split; [reflexivity|]. split; [reflexivity|].
  apply (C4_marked_roots_exact 0.1 5 mixed_solver (Num 0)).
  - reflexivity.
  - intros cp [<-|[<-|[<-|[<-|[]]]]]; reflexivity.
Defined.

(** C3, as the code has it: a root-marking block never propagates an
    exception.  When the solver raises, the block draws nothing.  When
    the classification or the conversion of a root raises, the block
    stops there: the markers of the roots accepted before that root stay,
    and no later root is marked.  (The two blocks of [plot_country] are
    [mark_roots 0 1 "--" 0.6] and [mark_roots 0 2 ":" 0.7].) *)
Theorem C3_fail_soft (xmin xmax : Q) (sp_solve : expr -> result (list root))
    (i j : nat) (linestyle : string) (alpha : Q) (e : expr) (fig : figure) :
  fst (mark_roots xmin xmax sp_solve i j linestyle alpha e fig) = Ok tt
  /\ (forall err,
        sp_solve e = Raise err ->
        snd (mark_roots xmin xmax sp_solve i j linestyle alpha e fig) = fig)
  /\ (forall pre cp post,
        sp_solve e = Ok (pre ++ cp :: post) ->
        (forall r, In r pre -> root_raises r = false) ->
        root_raises cp = true ->
        snd (mark_roots xmin xmax sp_solve i j linestyle alpha e fig)
        = fig ++ drawn xmin xmax i j linestyle alpha pre).
Proof.
  rewrite mark_roots_spec. cbn [fst snd].
  split; [reflexivity|]. split.
  - intros err ->. reflexivity.
  - intros pre cp post -> Hpre Hcp.
    rewrite (scanned_prefix pre post cp Hpre Hcp). reflexivity.
Qed.

(** C3 as stated fails: the conversion of the second root raises, and
    the block has already drawn the two markers of the first root. *)
Lemma C3_counterexample :
  stalling_solver (sp_diff (trigonometric (mk_params 1.2 0.45 3)))
  = Ok [real_root 3.5; unconvertible_root; real_root 4]
  /\ is_real unconvertible_root = Ok (Some true)
  /\ to_float unconvertible_root
     = Raise (TypeError "Cannot convert expression to float")
  /\ mark_critical_points 0.1 5 stalling_solver
       (sp_diff (trigonometric (mk_params 1.2 0.45 3))) subplots
     = (Ok tt, [(0%nat, VLine 3.5 "--" 0.6); (1%nat, VLine 3.5 "--" 0.6)])
  /\ marker_positions 0
       (snd (mark_critical_points 0.1 5 stalling_solver
               (sp_diff (trigonometric (mk_params 1.2 0.45 3))) subplots))
     <> [].
Proof.
  repeat split; try reflexivity. discriminate.
Qed.

(** C10: the handler wraps the whole loop.  When the body raises at a
    root, the markers drawn for the roots before it remain: the marked
    values are those of the accepted roots before the failing one, a prefix
    of the accepted values of the whole list, and the contribution is empty
    only when no earlier root was accepted. *)
Theorem C10_markers_before_failure (xmin xmax : Q)
    (sp_solve : expr -> result (list root)) (i j : nat) (linestyle : string)
    (alpha : Q) (e : expr) (pre post : list root) (cp : root) (fig : figure) :
  i <> j ->
  sp_solve e = Ok (pre ++ cp :: post) ->
  (forall r, In r pre -> root_raises r = false) ->
  root_raises cp = true ->
  let fig' := snd (mark_roots xmin xmax sp_solve i j linestyle alpha e fig) in
  fig' = fig ++ drawn xmin xmax i j linestyle alpha pre
  /\ marker_positions i fig'
     = marker_positions i fig ++ accepted_values xmin xmax pre
  /\ marker_positions j fig'
     = marker_positions j fig ++ accepted_values xmin xmax pre
  /\ accepted_values xmin xmax (pre ++ cp :: post)
     = accepted_values xmin xmax pre ++ accepted_values xmin xmax post
  /\ (marker_positions i fig' = marker_positions i fig
      <-> accepted_values xmin xmax pre = []).
Proof.
  intros Hij Hsolve Hpre Hcp fig'.
  assert (Hfig : fig' = fig ++ drawn xmin xmax i j linestyle alpha pre).
  { unfold fig'. rewrite mark_roots_spec, Hsolve.
    rewrite (scanned_prefix pre post cp Hpre Hcp). reflexivity. }
  assert (Hi : marker_positions i fig'
               = marker_positions i fig ++ accepted_values xmin xmax pre).
  { rewrite Hfig, marker_positions_app, marker_positions_drawn by auto.
    reflexivity. }
  split; [exact Hfig|]. split; [exact Hi|]. split.
  - rewrite Hfig, marker_positions_app, marker_positions_drawn by auto.
    reflexivity.
  - split.
    + rewrite accepted_values_app. f_equal.
      change (cp :: post) with ([cp] ++ post).
      rewrite accepted_values_app.
      assert (Hnone : accepted xmin xmax cp = None).
      { unfold root_raises in Hcp. unfold accepted.
        destruct (is_real cp) as [[[|]|]|err]; try reflexivity.
        destruct (to_float cp); [discriminate|reflexivity]. }
      unfold accepted_values at 1. cbn [List.flat_map]. rewrite Hnone.
      reflexivity.
    + rewrite Hi. split.
      * intros H.
        apply (f_equal (@length Q)) in H. rewrite List.length_app in H.
        destruct (accepted_values xmin xmax pre); [reflexivity|].
        simpl in H. lia.
      * intros ->. apply List.app_nil_r.
Qed.

Lemma C10_markers_before_failure_witness :
  root_raises unconvertible_root = true
  /\ snd (mark_roots 0.1 5 stalling_solver 0 1 "--" 0.6 (Num 0) subplots)
     = [(0%nat, VLine 3.5 "--" 0.6); (1%nat, VLine 3.5 "--" 0.6)]
  /\ marker_positions 0
       (snd (mark_roots 0.1 5 stalling_solver 0 1 "--" 0.6 (Num 0) subplots))
     = marker_positions 0 subplots ++ accepted_values 0.1 5 [real_root 3.5].
Proof.
  split; [reflexivity|]. split; [reflexivity|].
  apply (C10_markers_before_failure 0.1 5 stalling_solver 0 1 "--" 0.6
           (Num 0) [real_root 3.5] [real_root 4] unconvertible_root subplots).
  - discriminate.
  - reflexivity.
  - intros r [<-|[]]. reflexivity.
  - reflexivity.
Defined.

(** ** The solver on an equation with real solutions *)



(** ** Plotting one country *)

Arguments linspace : simpl never.
Arguments x_vals : simpl never.
Arguments sample : simpl never.

Lemma length_x_vals (xmin xmax : Q) : length (x_vals xmin xmax) = 1000%nat.
Proof. apply length_linspace. Qed.

Lemma shape_sample (xmin xmax : Q) (e : expr) :
  shape (sample xmin xmax e) = if has_x e then 1000%nat else 1%nat.
Proof.
  unfold sample. rewrite lambdify_Array.
  destruct (has_x e); cbn [shape]; [|reflexivity].
  rewrite !List.length_map. apply length_x_vals.
Qed.

Lemma plot_ok (i : nat) (xs : list Q) (ys : ndarray) (ls lab : string)
    (fig : figure) :
  length xs = shape ys ->
  plot i xs ys ls lab fig = (Ok tt, fig ++ [(i, Line2D xs (to_list ys) ls lab)]).
Proof.
  intros H. unfold plot. rewrite H, Nat.eqb_refl. reflexivity.
Qed.

Lemma plot_raises (i : nat) (xs : list Q) (ys : ndarray) (ls lab : string)
    (fig : figure) :
  length xs <> shape ys ->
  plot i xs ys ls lab fig
  = (Raise (ValueError "x and y must have same first dimension"), fig).
Proof.
  intros H. unfold plot.
  destruct (Nat.eqb_spec (length xs) (shape ys)); [contradiction|reflexivity].
Qed.

Lemma plot_sample (xmin xmax : Q) (i : nat) (e : expr) (ls lab : string)
    (fig : figure) :
  plot i (x_vals xmin xmax) (sample xmin xmax e) ls lab fig
  = if has_x e
    then (Ok tt,
          fig ++ [(i, Line2D (x_vals xmin xmax)
                        (to_list (sample xmin xmax e)) ls lab)])
    else (Raise (ValueError "x and y must have same first dimension"), fig).
Proof.
  destruct (has_x e) eqn:E.
  - apply plot_ok. rewrite shape_sample, E. apply length_x_vals.
  - apply plot_raises. rewrite shape_sample, E, length_x_vals. lia.
Qed.

Lemma mark_roots_solved (xmin xmax : Q)
    (sp_solve : expr -> result (list root)) (i j : nat) (ls : string)
    (alpha : Q) (e : expr) (fig : figure) :
  mark_roots xmin xmax sp_solve i j ls alpha e fig
  = (Ok tt, fig ++ solved_marks xmin xmax sp_solve i j ls alpha e).
Proof.
  rewrite mark_roots_spec. unfold solved_marks.
  destruct (sp_solve e); [reflexivity|]. rewrite List.app_nil_r. reflexivity.
Qed.

Lemma plot_country_spec (function_type : string) (xmin xmax : Q)
    (sp_solve : expr -> result (list root)) (country linestyle : string)
    (fig : figure) :
  plot_country function_type xmin xmax sp_solve country linestyle fig
  = (fst (country_artists function_type xmin xmax sp_solve country linestyle),
     fig ++ snd (country_artists function_type xmin xmax sp_solve country
                   linestyle)).
Proof.
  unfold plot_country, country_artists, bind at 1, lift.
  destruct (getitem country_params country) as [params|err];
    [|cbn [fst snd]; rewrite List.app_nil_r; reflexivity].
  destruct (build_function function_type params) as [f|];
    [|cbn [fst snd]; unfold raise; rewrite List.app_nil_r; reflexivity].
  cbv zeta. unfold derivatives.
  unfold bind at 1. rewrite plot_sample.
  destruct (has_x f); cbn [negb fst snd];
    [|rewrite List.app_nil_r; reflexivity].
  unfold bind at 1. rewrite plot_sample.
  destruct (has_x (sp_diff f)); cbn [negb fst snd]; [|reflexivity].
  unfold bind at 1. rewrite plot_sample.
  destruct (has_x (sp_diff (sp_diff f))); cbn [negb fst snd];
    [|rewrite <- List.app_assoc; reflexivity].
  unfold bind at 1, mark_critical_points, mark_inflection_points.
  rewrite !mark_roots_solved.
  rewrite <- !List.app_assoc. reflexivity.
Qed.

Lemma curves_app (i : nat) (fig fig' : figure) :
  curves i (fig ++ fig') = curves i fig ++ curves i fig'.
Proof. unfold curves. rewrite List.filter_app, List.map_app. reflexivity. Qed.

Lemma curves_drawn (xmin xmax : Q) (i j k : nat) (ls : string) (alpha : Q)
    (points : list root) :
  curves k (drawn xmin xmax i j ls alpha points) = [].
Proof.
  induction points as [|cp rest IH]; [reflexivity|].
  cbn [drawn List.flat_map]. fold (drawn xmin xmax i j ls alpha rest).
  rewrite curves_app, IH, List.app_nil_r.
  destruct (accepted xmin xmax cp); [|reflexivity].
  unfold curves, marks, is_line. cbn [List.filter snd]. 
  rewrite !andb_false_r. reflexivity.
Qed.

Lemma curves_solved_marks (xmin xmax : Q)
    (sp_solve : expr -> result (list root)) (i j k : nat) (ls : string)
    (alpha : Q) (e : expr) :
  curves k (solved_marks xmin xmax sp_solve i j ls alpha e) = [].
Proof.
  unfold solved_marks. destruct (sp_solve e); [apply curves_drawn|reflexivity].
Qed.

(** One call draws at most one curve on each axes, with the line style and
    the label of the call; when it completes it has drawn one curve on
    each of the three axes. *)
Lemma country_curves (function_type : string) (xmin xmax : Q)
    (sp_solve : expr -> result (list root)) (country linestyle : string)
    (i : nat) :
  let r := country_artists function_type xmin xmax sp_solve country linestyle in
  (curves i (snd r) = []
   \/ exists ys,
       curves i (snd r) = [Line2D (x_vals xmin xmax) ys linestyle country])
  /\ (fst r = Ok tt -> (i < 3)%nat ->
      exists ys,
        curves i (snd r) = [Line2D (x_vals xmin xmax) ys linestyle country]).
Proof.
  unfold country_artists.
  destruct (getitem country_params country) as [params|err];
    [|split; [left; reflexivity|discriminate]].
  destruct (build_function function_type params) as [f|];
    [|split; [left; reflexivity|discriminate]].
  cbv zeta.
  destruct (has_x f); cbn [negb];
    [|split; [left; reflexivity|discriminate]].
  destruct (has_x (sp_diff f)); cbn [negb fst snd].
  2:{ split; [|discriminate].
      destruct i as [|i]; [right|left]; eauto. }
  destruct (has_x (sp_diff (sp_diff f))); cbn [negb fst snd].
  2:{ split; [|discriminate].
      destruct i as [|[|i]]; [right|right|left]; eauto. }
  rewrite !curves_app, !curves_solved_marks, !List.app_nil_r.
  split.
  - destruct i as [|[|[|i]]]; [right|right|right|left]; eauto.
  - intros _ Hi. destruct i as [|[|[|i]]]; [eauto|eauto|eauto|lia].
Qed.

Lemma country_curves_length (function_type : string) (xmin xmax : Q)
    (sp_solve : expr -> result (list root)) (country linestyle : string)
    (i : nat) :
  (length (curves i (snd (country_artists function_type xmin xmax sp_solve
                            country linestyle))) <= 1)%nat.
Proof.
  destruct (country_curves function_type xmin xmax sp_solve country
              linestyle i) as [[->|[ys ->]] _]; simpl; lia.
Qed.

(** The catalogue countries with the three function types whose second
    derivative still contains [x]: the call completes. *)
Lemma country_artists_ok (function_type : string) (xmin xmax : Q)
    (sp_solve : expr -> result (list root)) (country linestyle : string)
    (p : params) (f : expr) :
  getitem country_params country = Ok p ->
  build_function function_type p = Some f ->
  has_x f = true ->
  has_x (sp_diff f) = true ->
  has_x (sp_diff (sp_diff f)) = true ->
  fst (country_artists function_type xmin xmax sp_solve country linestyle)
  = Ok tt.
Proof.
  intros Hp Hf H0 H1 H2. unfold country_artists.
  rewrite Hp, Hf. cbv zeta. rewrite H0, H1, H2. reflexivity.
Qed.

Lemma catalog_completes (function_type : string) (xmin xmax : Q)
    (sp_solve : expr -> result (list root)) (country linestyle : string) :
  In function_type
     [ "Exponential (Market Growth)";
       "Logarithmic (Diminishing Returns)";
       "Trigonometric (Seasonality)" ] ->
  In country countries ->
  fst (country_artists function_type xmin xmax sp_solve country linestyle)
  = Ok tt.
Proof.
  intros Hft Hc.
  repeat (destruct Hft as [<-|Hft]); try contradiction;
    repeat (destruct Hc as [<-|Hc]); try contradiction;
    (eapply country_artists_ok;
     [vm_compute; reflexivity|reflexivity|reflexivity..]).
Qed.

(** ** The country table *)

Lemma country_params_unknown (country : string) :
  ~ In country countries -> country_params !! country = None.
Proof.
  intros Hn. unfold country_params. cbn [list_to_map foldr fst snd uncurry].
  repeat (rewrite lookup_insert_ne
            by (intros <-; apply Hn; simpl; tauto)).
  apply lookup_empty.
Qed.

Lemma country_params_known (country : string) :
  In country countries -> exists p, country_params !! country = Some p.
Proof.
  intros Hc. repeat (destruct Hc as [<-|Hc]); try contradiction;
    eexists; vm_compute; reflexivity.
Qed.

(** C8: a name outside the six of the catalogue has no profile: the
    lookup raises [KeyError] (the script's failure for an unknown
    country), and [plot_country] stops there without drawing.  For each
    of the six names the lookup returns the coefficients of the table. *)
Theorem C8_country_lookup (function_type : string) (xmin xmax : Q)
    (sp_solve : expr -> result (list root)) (country linestyle : string)
    (fig : figure) :
  (~ In country countries ->
   getitem country_params country = Raise (KeyError country)
   /\ plot_country function_type xmin xmax sp_solve country linestyle fig
      = (Raise (KeyError country), fig))
  /\ (In country countries <->
      exists p, getitem country_params country = Ok p)
  /\ getitem country_params "Spain 🇪🇸" = Ok (mk_params 1.2 0.45 3)
  /\ getitem country_params "Italy 🇮🇹" = Ok (mk_params 1.0 0.30 4.5)
  /\ getitem country_params "United States 🇺🇸" = Ok (mk_params 1.5 0.35 6)
  /\ getitem country_params "Mexico 🇲🇽" = Ok (mk_params 1.1 0.50 2.5)
  /\ getitem country_params "Japan 🇯🇵" = Ok (mk_params 0.9 0.25 5)
  /\ getitem country_params "Brazil 🇧🇷" = Ok (mk_params 1.3 0.55 3).
Proof.
  split; [|split].
  - intros Hn.
    assert (Hget : getitem country_params country = Raise (KeyError country)).
    { unfold getitem. rewrite (country_params_unknown country Hn).
      reflexivity. }
    split; [exact Hget|].
    unfold plot_country, bind, lift. rewrite Hget. reflexivity.
  - split.
    + intros Hc. destruct (country_params_known country Hc) as [p Hp].
      exists p. unfold getitem. rewrite Hp. reflexivity.
    + intros [p Hp]. destruct (in_dec string_dec country countries) as [|Hn];
        [assumption|].
      unfold getitem in Hp. rewrite (country_params_unknown country Hn) in Hp.
      discriminate.
  - repeat split; vm_compute; reflexivity.
Qed.

Lemma C8_country_lookup_witness :
  ~ In "Spain" countries
  /\ getitem country_params "Spain" = Raise (KeyError "Spain")
  /\ plot_country "Polynomial (Cost Structure)" 0.1 5 mixed_solver
       "Spain" "-" subplots
     = (Raise (KeyError "Spain"), subplots).
Proof.
  assert (Hn : ~ In "Spain" countries).
  { intros H. repeat (destruct H as [H|H]; [discriminate H|]). exact H. }
  split; [exact Hn|].
  exact (proj1 (C8_country_lookup "Polynomial (Cost Structure)" 0.1 5
                  mixed_solver "Spain" "-" subplots) Hn).
Defined.

(** ** Sampling the three curves *)

Lemma has_x_scale (p : Q) (v : expr) :
  has_x v = false -> has_x (scale p v) = false.
Proof.
  intros Hv. unfold scale.
  destruct (Qeq_bool p 0); [reflexivity|].
  destruct (Qeq_bool p 1); [exact Hv|exact Hv].
Qed.

Lemma has_x_mk_add (u v : expr) :
  has_x u = false -> has_x v = false -> has_x (mk_add u v) = false.
Proof.
  intros Hu Hv. unfold mk_add.
  case_expr; try reflexivity;
    repeat match goal with
      | |- context [Qeq_bool ?p ?q] => destruct (Qeq_bool p q)
      end;
    cbn [has_x] in *; rewrite ?Hu, ?Hv; reflexivity.
Qed.

Lemma has_x_mk_mul (u v : expr) :
  has_x u = false -> has_x v = false -> has_x (mk_mul u v) = false.
Proof.
  intros Hu Hv. unfold mk_mul.
  case_expr; try reflexivity; cbn [has_x] in *;
    try (apply has_x_scale; cbn [has_x]; assumption);
    rewrite ?Hu, ?Hv; reflexivity.
Qed.

Lemma has_x_mk_pow (u : expr) (n : Z) :
  has_x u = false -> has_x (mk_pow u n) = false.
Proof.
  intros Hu. unfold mk_pow.
  destruct (n =? 0)%Z; [reflexivity|]. destruct (n =? 1)%Z; exact Hu.
Qed.

Lemma has_x_sp_diff (e : expr) : has_x e = false -> has_x (sp_diff e) = false.
Proof.
  induction e as [q| |u IHu v IHv|u IHu v IHv|u IHu n|u IHu|u IHu|u IHu|u IHu];
    cbn [has_x sp_diff]; intros H; try discriminate; try reflexivity;
    try (apply orb_false_elim in H as [Hu Hv]);
    repeat first [ apply has_x_mk_add | apply has_x_mk_mul
                 | apply has_x_mk_pow ];
    cbn [has_x]; auto.
Qed.

Lemma has_x_mk_mul_zero (v : expr) : has_x (mk_mul (Num 0) v) = false.
Proof.
  unfold mk_mul. case_expr; reflexivity.
Qed.

Lemma has_x_affine (e : expr) : has_x e = false -> affine e = true.
Proof.
  induction e as [q| |u IHu v IHv|u IHu v IHv|u IHu n|u IHu|u IHu|u IHu|u IHu];
    cbn [has_x affine]; intros H; try discriminate; try reflexivity;
    try (rewrite H; reflexivity).
  - apply orb_false_elim in H as [Hu Hv]. rewrite IHu, IHv by assumption.
    reflexivity.
  - destruct u; cbn [has_x] in *; try (rewrite H; reflexivity).
    apply IHv, H.
Qed.

Lemma affine_scale (p : Q) (v : expr) :
  affine v = true -> affine (scale p v) = true.
Proof.
  intros Hv. unfold scale.
  destruct (Qeq_bool p 0); [reflexivity|].
  destruct (Qeq_bool p 1); [exact Hv|exact Hv].
Qed.

Lemma affine_mk_add (u v : expr) :
  affine u = true -> affine v = true -> affine (mk_add u v) = true.
Proof.
  intros Hu Hv.
  assert (H : affine (Add u v) = true) by (cbn [affine]; rewrite Hu, Hv; reflexivity).
  unfold mk_add. case_expr; try reflexivity; try exact H;
    match goal with
    | |- context [Qeq_bool ?p ?q] => destruct (Qeq_bool p q)
    end; assumption.
Qed.

Lemma affine_times (q : Q) (v : expr) :
  affine v = true -> affine (mk_mul (Num q) v) = true.
Proof.
  intros Hv. unfold mk_mul. case_expr; try reflexivity;
    apply affine_scale; assumption.
Qed.

(** The derivative of an expression of degree at most one is a number. *)
Lemma affine_sp_diff (e : expr) :
  affine e = true -> has_x (sp_diff e) = false.
Proof.
  induction e as [q| |u IHu v IHv|u IHu v IHv|u IHu n|u IHu|u IHu|u IHu|u IHu];
    intros H; try reflexivity;
    try (apply has_x_sp_diff; cbn [affine] in H; apply negb_true_iff in H;
         exact H).
  - cbn [affine] in H. apply andb_prop in H as [Hu Hv].
    cbn [sp_diff]. apply has_x_mk_add; auto.
  - destruct u as [q| | | | | | | |];
      try (apply has_x_sp_diff; cbn [affine] in H; apply negb_true_iff in H;
           exact H).
    cbn [affine] in H. cbn [sp_diff].
    apply has_x_mk_add; [apply has_x_mk_mul_zero|].
    apply has_x_mk_mul; [reflexivity|apply IHv, H].
Qed.

(** The second derivative of the polynomial template is a number: [x]
    does not occur in it. *)
Lemma polynomial_double_no_x (p : params) :
  has_x (sp_diff (sp_diff (polynomial p))) = false.
Proof.
  apply affine_sp_diff. unfold polynomial. cbn [sp_diff].
  repeat apply affine_mk_add; try reflexivity.
  change (mk_mul (mk_mul (Num (inject_Z 2)) (mk_pow X (2 - 1))) (Num 1))
    with (Mul (Num 2) X).
  apply affine_times. reflexivity.
Qed.

(** The sample points: 1000 of them, from [xmin] to [xmax], evenly
    spaced. *)
Lemma x_vals_spec (xmin xmax : Q) :
  length (x_vals xmin xmax) = 1000%nat
  /\ (List.nth 0 (x_vals xmin xmax) 0 == xmin)%Q
  /\ List.last (x_vals xmin xmax) 0%Q = xmax
  /\ forall i : nat,
      (i < 1000)%nat ->
      (List.nth i (x_vals xmin xmax) 0
       == xmin + inject_Z (Z.of_nat i) * ((xmax - xmin) / 999))%Q.
Proof.
  unfold x_vals. split; [apply length_linspace|].
  split; [apply linspace_first; lia|].
  split; [apply linspace_last; lia|].
  intros i Hi. rewrite linspace_nth by lia. reflexivity.
Qed.

(** When [x] occurs in the expression, its samples are its values at the
    1000 sample points. *)
Lemma sample_has_x (xmin xmax : Q) (e : expr) :
  has_x e = true ->
  sample xmin xmax e
  = Array (List.map (fun v => denote e (Q2R v)) (x_vals xmin xmax)).
Proof.
  intros H. unfold sample. rewrite lambdify_Array, H, List.map_map.
  reflexivity.
Qed.

Lemma sample_no_x (xmin xmax : Q) (e : expr) :
  has_x e = false -> sample xmin xmax e = Scalar (denote e 0%R).
Proof.
  intros H. unfold sample. rewrite lambdify_Array, H. reflexivity.
Qed.

(** For the exponential, logarithmic and trigonometric templates of the
    catalogue countries, the three curves are arrays of 1000 samples. *)
Lemma catalog_samples (function_type : string) (xmin xmax : Q)
    (country : string) :
  In function_type
     [ "Exponential (Market Growth)";
       "Logarithmic (Diminishing Returns)";
       "Trigonometric (Seasonality)" ] ->
  In country countries ->
  exists p f,
    getitem country_params country = Ok p
    /\ build_function function_type p = Some f
    /\ forall e, In e [f; fst (derivatives f); snd (derivatives f)] ->
         sample xmin xmax e
         = Array (List.map (fun v => denote e (Q2R v)) (x_vals xmin xmax))
         /\ shape (sample xmin xmax e) = 1000%nat.
Proof.
  intros Hft Hc.
  assert (H : exists p f,
             getitem country_params country = Ok p
             /\ build_function function_type p = Some f
             /\ has_x f = true /\ has_x (sp_diff f) = true
             /\ has_x (sp_diff (sp_diff f)) = true).
  { repeat (destruct Hft as [<-|Hft]); try contradiction;
      repeat (destruct Hc as [<-|Hc]); try contradiction;
      (eexists; eexists;
       split; [vm_compute; reflexivity|];
       split; [reflexivity|]; repeat split; reflexivity). }
  destruct H as (p & f & Hp & Hf & H0 & H1 & H2).
  exists p, f. split; [exact Hp|]. split; [exact Hf|].
  unfold derivatives. cbn [fst snd].
  intros e [<-|[<-|[<-|[]]]];
    (split; [apply sample_has_x; assumption|]);
    rewrite shape_sample; [rewrite H0|rewrite H1|rewrite H2]; reflexivity.
Qed.

Lemma getitem_spain :
  getitem country_params "Spain 🇪🇸" = Ok (mk_params 1.2 0.45 3).
Proof. vm_compute. reflexivity. Qed.

(** With the polynomial template [plot_country] never completes. *)
Lemma polynomial_refused (xmin xmax : Q)
    (sp_solve : expr -> result (list root)) (country linestyle : string)
    (p : params) :
  getitem country_params country = Ok p ->
  fst (country_artists "Polynomial (Cost Structure)" xmin xmax sp_solve
         country linestyle)
  = Raise (ValueError "x and y must have same first dimension")
  /\ curves 2 (snd (country_artists "Polynomial (Cost Structure)" xmin xmax
                      sp_solve country linestyle)) = [].
Proof.
  intros Hp. unfold country_artists. rewrite Hp.
  change (build_function "Polynomial (Cost Structure)" p)
    with (Some (polynomial p)).
  cbv beta iota zeta. rewrite polynomial_double_no_x.
  destruct (has_x (polynomial p)); [|split; reflexivity].
  destruct (has_x (sp_diff (polynomial p))); split; reflexivity.
Qed.

(** C7 (defect): with the polynomial template the third curve is not an
    array of 1000 samples.  The second derivative of [a*x^2 + b*x + c] is
    the number [2*a], the function that [lambdify] generates for a number
    returns that number whatever its argument, and [axes[2].plot] refuses
    a single value against the 1000 sample points: [plot_country] raises
    [ValueError] after the first two curves.  Shown for Spain on the range
    [0.1, 5.0], and for every catalogue country and range. *)
Theorem C7_polynomial_second_derivative_scalar :
  build_function "Polynomial (Cost Structure)" (mk_params 1.2 0.45 3)
  = Some (polynomial (mk_params 1.2 0.45 3))
  /\ derivatives (polynomial (mk_params 1.2 0.45 3))
     = ((Num (12 # 5) * X + Num (9 # 20))%E, Num (12 # 5))
  /\ length (x_vals 0.1 5) = 1000%nat
  /\ sample 0.1 5 (Num (12 # 5)) = Scalar (Q2R (12 # 5))
  /\ shape (sample 0.1 5 (snd (derivatives (polynomial (mk_params 1.2 0.45 3)))))
     = 1%nat
  /\ (forall sp_solve : expr -> result (list root),
        plot_country "Polynomial (Cost Structure)" 0.1 5 sp_solve
          "Spain 🇪🇸" "-" subplots
        = (Raise (ValueError "x and y must have same first dimension"),
           [ (0%nat,
              Line2D (x_vals 0.1 5)
                (to_list (sample 0.1 5 (polynomial (mk_params 1.2 0.45 3))))
                "-" "Spain 🇪🇸");
             (1%nat,
              Line2D (x_vals 0.1 5)
                (to_list (sample 0.1 5 (Num (12 # 5) * X + Num (9 # 20))%E))
                "-" "Spain 🇪🇸") ]))
  /\ (forall (xmin xmax : Q) (sp_solve : expr -> result (list root))
             (country linestyle : string) (fig : figure),
        In country countries ->
        fst (plot_country "Polynomial (Cost Structure)" xmin xmax sp_solve
               country linestyle fig)
        = Raise (ValueError "x and y must have same first dimension")).
Proof.
  split; [reflexivity|]. split; [reflexivity|].
  split; [apply length_x_vals|]. split; [reflexivity|].
  split; [rewrite shape_sample; reflexivity|]. split.
  - intros sp_solve. rewrite plot_country_spec.
    unfold country_artists. rewrite getitem_spain.
    change (build_function "Polynomial (Cost Structure)" (mk_params 1.2 0.45 3))
      with (Some (polynomial (mk_params 1.2 0.45 3))).
    cbv beta iota zeta.
    change (sp_diff (polynomial (mk_params 1.2 0.45 3)))
      with (Num (12 # 5) * X + Num (9 # 20))%E.
    reflexivity.
  - intros xmin xmax sp_solve country linestyle fig Hc.
    rewrite plot_country_spec. cbn [fst].
    destruct (country_params_known country Hc) as [p Hp].
    apply (polynomial_refused xmin xmax sp_solve country linestyle p).
    unfold getitem. rewrite Hp. reflexivity.
Qed.

(** ** The comparison country *)

Section Comparison.

Variable function_type : string.
Variables xmin xmax : Q.
Variable sp_solve : expr -> result (list root).

Abbreviation plot_country' := (plot_country function_type xmin xmax sp_solve).
Abbreviation script' := (script function_type xmin xmax sp_solve).
Abbreviation artists := (country_artists function_type xmin xmax sp_solve).

(** The guard [country_2 != country_1] skips the second pass. *)
Lemma script_same (country_1 : string) (fig : figure) :
  script' true country_1 (Some country_1) fig
  = plot_country' country_1 "-" fig.
Proof.
  unfold script, bind.
  rewrite bool_decide_eq_true_2 by reflexivity. cbn [negb andb].
  destruct (plot_country' country_1 "-" fig) as [[[]|err] fig'];
    reflexivity.
Qed.

Lemma script_other (country_1 country_2 : string) (fig : figure) :
  country_2 <> country_1 ->
  script' true country_1 (Some country_2) fig
  = (plot_country' country_1 "-" ;; plot_country' country_2 "--")%py fig.
Proof.
  intros Hne. unfold script.
  rewrite bool_decide_eq_false_2 by congruence. reflexivity.
Qed.

(** Without comparison mode there is one pass. *)
Lemma script_single (country_1 : string) (country_2 : option string)
    (fig : figure) :
  script' false country_1 country_2 fig = plot_country' country_1 "-" fig.
Proof.
  unfold script, bind. cbn [andb].
  destruct (plot_country' country_1 "-" fig) as [[[]|err] fig'];
    reflexivity.
Qed.

Lemma script_other_figure (country_1 country_2 : string) :
  country_2 <> country_1 ->
  script' true country_1 (Some country_2) subplots
  = match fst (artists country_1 "-") with
    | Ok _ =>
        (fst (artists country_2 "--"),
         snd (artists country_1 "-") ++ snd (artists country_2 "--"))
    | Raise err => (Raise err, snd (artists country_1 "-"))
    end.
Proof.
  intros Hne. rewrite script_other by exact Hne.
  unfold bind. rewrite plot_country_spec. unfold subplots. cbn [app].
  destruct (fst (artists country_1 "-")) as [[]|err]; [|reflexivity].
  rewrite plot_country_spec. reflexivity.
Qed.

(** The sidebar sets [country_2] only in comparison mode, so the second
    pass always has a country to plot. *)
Lemma script_sidebar (comparison_mode : bool) (country_1 choice : string)
    (fig : figure) :
  script' comparison_mode country_1
    (sidebar_country_2 comparison_mode choice) fig
  = if comparison_mode && negb (String.eqb choice country_1)
    then (plot_country' country_1 "-" ;; plot_country' choice "--")%py fig
    else plot_country' country_1 "-" fig.
Proof.
  destruct comparison_mode; cbn [sidebar_country_2 andb];
    [|apply script_single].
  destruct (String.eqb_spec choice country_1) as [->|Hne]; cbn [negb].
  - apply script_same.
  - apply script_other, Hne.
Qed.

End Comparison.

(** C9: in comparison mode with [country_2] equal to [country_1] the
    guard skips the second pass: the script is the single pass
    [plot_country country_1 "-"], so no axes gets more than one curve, and
    each of the three axes has exactly one when the pass completes.  With
    two different countries the second pass runs with the line style "--",
    which differs from the "-" of the first: every curve of the figure is
    the first country's with "-" or the second country's with "--", and when
    the script completes each axes holds exactly these two, in this
    order.  The script completes for the catalogue countries with the
    exponential, logarithmic and trigonometric templates. *)
Theorem C9_comparison_guard (function_type : string) (xmin xmax : Q)
    (sp_solve : expr -> result (list root)) (country_1 country_2 : string) :
  let run :=
    script function_type xmin xmax sp_solve true country_1 (Some country_2)
      subplots in
  let xs := x_vals xmin xmax in
  (country_2 = country_1 ->
   run = plot_country function_type xmin xmax sp_solve country_1 "-" subplots
   /\ (forall i : nat, (length (curves i (snd run)) <= 1)%nat)
   /\ (fst run = Ok tt ->
       forall i : nat, (i < 3)%nat ->
         exists ys, curves i (snd run) = [Line2D xs ys "-" country_1]))
  /\ (country_2 <> country_1 ->
      run = (plot_country function_type xmin xmax sp_solve country_1 "-" ;;
             plot_country function_type xmin xmax sp_solve country_2 "--")%py
              subplots
      /\ "--" <> "-"
      /\ (forall (i : nat) (art : artist),
            In art (curves i (snd run)) ->
            exists ys,
              art = Line2D xs ys "-" country_1
              \/ art = Line2D xs ys "--" country_2)
      /\ (fst run = Ok tt ->
          forall i : nat, (i < 3)%nat ->
            exists ys1 ys2,
              curves i (snd run)
              = [Line2D xs ys1 "-" country_1; Line2D xs ys2 "--" country_2]))
  /\ (In function_type
         [ "Exponential (Market Growth)";
           "Logarithmic (Diminishing Returns)";
           "Trigonometric (Seasonality)" ] ->
      In country_1 countries -> In country_2 countries ->
      fst run = Ok tt).
Proof.
  intros run xs. split; [|split].
  - intros ->. unfold run.
    rewrite script_same, plot_country_spec. unfold subplots.
    cbn [app fst snd].
    split; [reflexivity|]. split.
    + intros i. apply country_curves_length.
    + intros Hok i Hi.
      apply (country_curves function_type xmin xmax sp_solve country_1 "-" i);
        assumption.
  - intros Hne. unfold run.
    split; [apply script_other, Hne|]. split; [discriminate|].
    rewrite script_other_figure by exact Hne.
    pose proof (country_curves function_type xmin xmax sp_solve country_1 "-")
      as H1.
    pose proof (country_curves function_type xmin xmax sp_solve country_2 "--")
      as H2.
    cbv zeta in H1, H2.
    destruct (fst (country_artists function_type xmin xmax sp_solve
                     country_1 "-")) as [[]|err] eqn:E1; cbn [fst snd].
    + split.
      * intros i art Hin. rewrite curves_app, List.in_app_iff in Hin.
        destruct Hin as [Hin|Hin].
        -- destruct (H1 i) as [[E|[ys E]] _]; rewrite E in Hin;
             [destruct Hin|]. destruct Hin as [<-|[]]. eauto.
        -- destruct (H2 i) as [[E|[ys E]] _]; rewrite E in Hin;
             [destruct Hin|]. destruct Hin as [<-|[]]. eauto.
      * intros Hok i Hi. rewrite curves_app.
        destruct (H1 i) as [_ H1i], (H2 i) as [_ H2i].
        destruct (H1i eq_refl Hi) as [ys1 ->].
        destruct (H2i Hok Hi) as [ys2 ->]. eauto.
    + split; [|discriminate].
      intros i art Hin.
      destruct (H1 i) as [[E|[ys E]] _]; rewrite E in Hin; [destruct Hin|].
      destruct Hin as [<-|[]]. eauto.
  - intros Hft H1 H2. unfold run.
    destruct (string_dec country_2 country_1) as [->|Hne].
    + rewrite script_same, plot_country_spec. cbn [fst].
      apply catalog_completes; assumption.
    + rewrite script_other_figure by exact Hne.
      rewrite (catalog_completes function_type xmin xmax sp_solve country_1
                 "-" Hft H1).
      cbn [fst]. apply catalog_completes; assumption.
Qed.

Lemma C9_comparison_guard_witness :
  (exists ys,
     curves 0
       (snd (script "Exponential (Market Growth)" 0.1 5 mixed_solver true
               "Spain 🇪🇸" (Some "Spain 🇪🇸") subplots))
     = [Line2D (x_vals 0.1 5) ys "-" "Spain 🇪🇸"])
  /\ (exists ys1 ys2,
        curves 0
          (snd (script "Exponential (Market Growth)" 0.1 5 mixed_solver true
                  "Spain 🇪🇸" (Some "Italy 🇮🇹") subplots))
        = [ Line2D (x_vals 0.1 5) ys1 "-" "Spain 🇪🇸";
            Line2D (x_vals 0.1 5) ys2 "--" "Italy 🇮🇹" ]).
Proof.
  assert (Hft : In "Exponential (Market Growth)"
                  [ "Exponential (Market Growth)";
                    "Logarithmic (Diminishing Returns)";
                    "Trigonometric (Seasonality)" ])
    by (left; reflexivity).
  assert (Hs : In "Spain 🇪🇸" countries) by (left; reflexivity).
  assert (Hi : In "Italy 🇮🇹" countries) by (right; left; reflexivity).
  split.
  - destruct (C9_comparison_guard "Exponential (Market Growth)" 0.1 5
                mixed_solver "Spain 🇪🇸" "Spain 🇪🇸")
      as (Hsame & _ & Hdone).
    destruct (Hsame eq_refl) as (_ & _ & Hone).
    apply (Hone (Hdone Hft Hs Hs) 0%nat). lia.
  - destruct (C9_comparison_guard "Exponential (Market Growth)" 0.1 5
                mixed_solver "Spain 🇪🇸" "Italy 🇮🇹")
      as (_ & Hother & Hdone).
    assert (Hne : "Italy 🇮🇹" <> "Spain 🇪🇸") by discriminate.
    destruct (Hother Hne) as (_ & _ & _ & Htwo).
    apply (Htwo (Hdone Hft Hs Hi) 0%nat). lia.
Defined.

(** * Further properties of the script *)

(** ** The function builder *)

(** X1: [build_function] builds an expression exactly for the four function
    types of the select box; for any other string it falls off its last
    [elif] and returns [None]. *)
Theorem X1_build_function_defined_iff (function_type : string) (p : params) :
  ((exists f, build_function function_type p = Some f)
   <-> In function_type function_types)
  /\ (build_function function_type p = None
      <-> ~ In function_type function_types).
Proof.
  assert (Hin : In function_type function_types ->
                exists f, build_function function_type p = Some f).
  { intros H. repeat (destruct H as [<-|H]); try contradiction;
      eexists; reflexivity. }
  split; split.
  - intros [f Hf].
    destruct (build_function_cases _ _ _ Hf)
      as [[-> _]|[[-> _]|[[-> _]|[-> _]]]]; simpl; auto.
  - exact Hin.
  - intros Hnone Hft. destruct (Hin Hft) as [f Hf]. congruence.
  - apply build_function_None.
Qed.

(** ** When one call of [plot_country] completes *)

Lemma getitem_known (country : string) (p : params) :
  getitem country_params country = Ok p -> In country countries.
Proof.
  intros Hp. destruct (in_dec string_dec country countries) as [|Hn];
    [assumption|].
  unfold getitem in Hp. rewrite (country_params_unknown country Hn) in Hp.
  discriminate.
Qed.

Lemma country_artists_Ok_iff (function_type : string) (xmin xmax : Q)
    (sp_solve : expr -> result (list root)) (country linestyle : string) :
  fst (country_artists function_type xmin xmax sp_solve country linestyle)
  = Ok tt
  <-> In country countries /\ In function_type array_types.
Proof.
  split.
  - intros Hok. unfold country_artists in Hok.
    destruct (getitem country_params country) as [p|err] eqn:Hp;
      [|discriminate].
    split; [exact (getitem_known country p Hp)|].
    destruct (build_function function_type p) as [f|] eqn:Hf;
      [|discriminate].
    destruct (build_function_cases _ _ _ Hf)
      as [[-> _]|[[-> _]|[[-> ->]|[-> _]]]]; simpl; auto.
    exfalso.
    pose proof (polynomial_refused xmin xmax sp_solve country linestyle p Hp)
      as [Href _].
    unfold country_artists in Href. rewrite Hp in Href.
    change (build_function "Polynomial (Cost Structure)" p)
      with (Some (polynomial p)) in Href.
    rewrite Href in Hok. discriminate.
  - intros [Hc Hft]. apply catalog_completes; assumption.
Qed.

(** X2: whatever the solver returns and whatever the range, a call of
    [plot_country] returns normally exactly when the country is one of the
    six of the table and the function type is the exponential, the
    logarithmic or the trigonometric one.  With an unknown country or an
    unknown function type it raises before drawing anything. *)
Theorem X2_plot_country_completes_iff (function_type : string)
    (xmin xmax : Q) (sp_solve : expr -> result (list root))
    (country linestyle : string) (fig : figure) :
  (fst (plot_country function_type xmin xmax sp_solve country linestyle fig)
   = Ok tt
   <-> In country countries /\ In function_type array_types)
  /\ (~ In country countries \/ ~ In function_type function_types ->
      snd (plot_country function_type xmin xmax sp_solve country linestyle
             fig) = fig).
Proof.
  rewrite plot_country_spec. cbn [fst snd].
  split; [apply country_artists_Ok_iff|].
  intros Hbad. unfold country_artists.
  destruct (getitem country_params country) as [p|err] eqn:Hp;
    [|apply List.app_nil_r].
  destruct (build_function function_type p) as [f|] eqn:Hf;
    [|apply List.app_nil_r].
  exfalso. destruct Hbad as [Hn|Hn]; apply Hn.
  - exact (getitem_known country p Hp).
  - destruct (build_function_cases _ _ _ Hf)
      as [[-> _]|[[-> _]|[[-> _]|[-> _]]]]; simpl; auto.
Qed.

(** ** What the root-marking blocks draw, in every case *)

Lemma scanned_In (points : list root) (cp : root) :
  In cp (scanned points) -> In cp points.
Proof.
  induction points as [|r rest IH]; cbn [scanned]; [tauto|].
  destruct (root_raises r); [intros []|].
  intros [->|H]; [left; reflexivity|right; apply IH, H].
Qed.

Lemma In_drawn (xmin xmax : Q) (i j : nat) (ls : string) (alpha : Q)
    (points : list root) (p : nat * artist) :
  In p (drawn xmin xmax i j ls alpha points) ->
  exists cp v,
    In cp points /\ accepted xmin xmax cp = Some v
    /\ (p = (i, VLine v ls alpha) \/ p = (j, VLine v ls alpha)).
Proof.
  unfold drawn. rewrite List.in_flat_map. intros (cp & Hcp & Hp).
  destruct (accepted xmin xmax cp) as [v|] eqn:E; [|destruct Hp].
  exists cp, v. split; [exact Hcp|]. split; [exact E|].
  destruct Hp as [<-|[<-|[]]]; auto.
Qed.

Lemma In_solved_marks (xmin xmax : Q)
    (sp_solve : expr -> result (list root)) (i j : nat) (ls : string)
    (alpha : Q) (e : expr) (p : nat * artist) :
  In p (solved_marks xmin xmax sp_solve i j ls alpha e) ->
  exists points cp v,
    sp_solve e = Ok points /\ In cp points
    /\ accepted xmin xmax cp = Some v
    /\ (p = (i, VLine v ls alpha) \/ p = (j, VLine v ls alpha)).
Proof.
  unfold solved_marks. destruct (sp_solve e) as [points|err]; [|intros []].
  intros Hp. apply In_drawn in Hp as (cp & v & Hcp & Hacc & Hpv).
  exists points, cp, v. split; [reflexivity|].
  split; [apply scanned_In, Hcp|]. split; assumption.
Qed.

Lemma marker_positions_solved_marks (xmin xmax : Q)
    (sp_solve : expr -> result (list root)) (i j k : nat) (ls : string)
    (alpha : Q) (e : expr) :
  i <> j ->
  marker_positions k (solved_marks xmin xmax sp_solve i j ls alpha e)
  = if Nat.eqb k i || Nat.eqb k j
    then solved_values xmin xmax sp_solve e else [].
Proof.
  intros Hij. unfold solved_marks, solved_values.
  destruct (sp_solve e) as [points|err];
    [|destruct (Nat.eqb k i || Nat.eqb k j); reflexivity].
  destruct (Nat.eqb_spec k i) as [->|Hi]; cbn [orb].
  - apply marker_positions_drawn; auto.
  - destruct (Nat.eqb_spec k j) as [->|Hj].
    + apply marker_positions_drawn; auto.
    + apply marker_positions_drawn_other; assumption.
Qed.

(** X4: a root-marking block draws vertical markers and nothing else.  The
    critical-point block adds only dashed lines of opacity 0.6 on axes 0 and
    1, the inflection-point block only dotted lines of opacity 0.7 on axes
    0 and 2; neither changes the curves of any axes, the second-derivative
    axes never gets a critical marker and the first-derivative axes never
    gets an inflection marker.  This holds whatever the solver returns or
    raises. *)
Theorem X4_blocks_draw_only_their_markers (xmin xmax : Q)
    (sp_solve : expr -> result (list root)) (e : expr) (fig : figure) :
  exists crit infl : figure,
    mark_critical_points xmin xmax sp_solve e fig = (Ok tt, fig ++ crit)
    /\ mark_inflection_points xmin xmax sp_solve e fig = (Ok tt, fig ++ infl)
    /\ (forall p, In p crit ->
          exists v, p = (0%nat, VLine v "--" 0.6)
                    \/ p = (1%nat, VLine v "--" 0.6))
    /\ (forall p, In p infl ->
          exists v, p = (0%nat, VLine v ":" 0.7)
                    \/ p = (2%nat, VLine v ":" 0.7))
    /\ (forall k : nat,
          curves k (fig ++ crit) = curves k fig
          /\ curves k (fig ++ infl) = curves k fig)
    /\ marker_positions 2 crit = []
    /\ marker_positions 1 infl = [].
Proof.
  exists (solved_marks xmin xmax sp_solve 0 1 "--" 0.6 e),
         (solved_marks xmin xmax sp_solve 0 2 ":" 0.7 e).
  unfold mark_critical_points, mark_inflection_points.
  rewrite !mark_roots_solved.
  split; [reflexivity|]. split; [reflexivity|].
  split; [|split; [|split; [|split]]].
  - intros p Hp.
    apply In_solved_marks in Hp as (_ & _ & v & _ & _ & _ & Hpv). eauto.
  - intros p Hp.
    apply In_solved_marks in Hp as (_ & _ & v & _ & _ & _ & Hpv). eauto.
  - intros k. rewrite !curves_app, !curves_solved_marks, !List.app_nil_r.
    split; reflexivity.
  - rewrite marker_positions_solved_marks by lia. reflexivity.
  - rewrite marker_positions_solved_marks by lia. reflexivity.
Qed.

Lemma In_solved_values (xmin xmax : Q)
    (sp_solve : expr -> result (list root)) (e : expr) (v : Q) :
  In v (solved_values xmin xmax sp_solve e) ->
  (xmin <= v)%Q /\ (v <= xmax)%Q
  /\ exists points cp,
      sp_solve e = Ok points /\ In cp points
      /\ is_real cp = Ok (Some true) /\ to_float cp = Ok v.
Proof.
  unfold solved_values. destruct (sp_solve e) as [points|err]; [|intros []].
  intros Hv. apply In_accepted_values in Hv as (cp & Hcp & Hr & Hf & Hlo & Hhi).
  split; [exact Hlo|]. split; [exact Hhi|].
  exists points, cp. split; [reflexivity|].
  split; [apply scanned_In, Hcp|]. split; assumption.
Qed.

(** X5: no marker is ever misplaced.  Whatever the solver returns, and
    also when the loop stops at a root that raises, each block puts the
    same positions, in the same order, on its two axes, and every marked
    position lies in [xmin, xmax] and is the [float] of a root that the
    solver returned and classified real. *)
Theorem X5_markers_in_range (xmin xmax : Q)
    (sp_solve : expr -> result (list root)) (e : expr) (fig : figure) :
  exists crit infl : figure,
    snd (mark_critical_points xmin xmax sp_solve e fig) = fig ++ crit
    /\ snd (mark_inflection_points xmin xmax sp_solve e fig) = fig ++ infl
    /\ marker_positions 0 crit = marker_positions 1 crit
    /\ marker_positions 0 infl = marker_positions 2 infl
    /\ forall v : Q,
        In v (marker_positions 0 crit) \/ In v (marker_positions 0 infl) ->
        (xmin <= v)%Q /\ (v <= xmax)%Q
        /\ exists points cp,
            sp_solve e = Ok points /\ In cp points
            /\ is_real cp = Ok (Some true) /\ to_float cp = Ok v.
Proof.
  exists (solved_marks xmin xmax sp_solve 0 1 "--" 0.6 e),
         (solved_marks xmin xmax sp_solve 0 2 ":" 0.7 e).
  unfold mark_critical_points, mark_inflection_points.
  rewrite !mark_roots_solved. cbn [snd].
  rewrite !marker_positions_solved_marks by lia. cbn [Nat.eqb orb].
  repeat (split; [reflexivity|]).
  intros v [Hv|Hv]; apply In_solved_values in Hv; exact Hv.
Qed.

(** ** The sample points *)

Lemma linspace_nth_R (start stop : Q) (num i : nat) (d : Q) :
  (1 < num)%nat -> (i < num)%nat ->
  Q2R (List.nth i (linspace start stop num) d)
  = (Q2R start + INR i * ((Q2R stop - Q2R start) / INR (num - 1)))%R.
Proof.
  intros Hnum Hi.
  rewrite (Qeq_eqR _ _ (linspace_nth start stop num i d Hnum Hi)).
  assert (Hnz : ~ (inject_Z (Z.of_nat (num - 1)) == 0)%Q).
  { unfold Qeq. simpl. lia. }
  rewrite Q2R_plus, Q2R_mult, Q2R_div by exact Hnz.
  rewrite Q2R_minus, !Q2R_inject_Z, <- !INR_IZR_INZ. reflexivity.
Qed.

Lemma linspace_bounds (start stop : Q) (num i : nat) (d : Q) :
  (1 < num)%nat -> (i < num)%nat -> (start <= stop)%Q ->
  (start <= List.nth i (linspace start stop num) d)%Q
  /\ (List.nth i (linspace start stop num) d <= stop)%Q.
Proof.
  intros Hnum Hi Hle.
  pose proof (linspace_nth_R start stop num i d Hnum Hi) as Hv.
  apply Qle_Rle in Hle.
  assert (HN : (0 < INR (num - 1))%R) by (apply lt_0_INR; lia).
  assert (Hk0 : (0 <= INR i)%R) by apply pos_INR.
  assert (HkN : (INR i <= INR (num - 1))%R) by (apply le_INR; lia).
  set (q := ((Q2R stop - Q2R start) / INR (num - 1))%R) in *.
  assert (Hq : (q * INR (num - 1) = Q2R stop - Q2R start)%R)
    by (unfold q; field; lra).
  assert (Hq0 : (0 <= q)%R)
    by (unfold q; apply Rmult_le_pos; [lra|left; apply Rinv_0_lt_compat, HN]).
  split; apply Rle_Qle; rewrite Hv; nra.
Qed.

Lemma linspace_increasing (start stop : Q) (num i j : nat) (d : Q) :
  (i < j)%nat -> (j < num)%nat -> (start < stop)%Q ->
  (List.nth i (linspace start stop num) d
   < List.nth j (linspace start stop num) d)%Q.
Proof.
  intros Hij Hj Hlt.
  assert (Hnum : (1 < num)%nat) by lia.
  pose proof (linspace_nth_R start stop num i d Hnum ltac:(lia)) as Hi'.
  pose proof (linspace_nth_R start stop num j d Hnum Hj) as Hj'.
  apply Qlt_Rlt in Hlt.
  assert (HN : (0 < INR (num - 1))%R) by (apply lt_0_INR; lia).
  assert (Hk : (INR i < INR j)%R) by (apply lt_INR; lia).
  set (q := ((Q2R stop - Q2R start) / INR (num - 1))%R) in *.
  assert (Hq0 : (0 < q)%R)
    by (unfold q; apply Rmult_lt_0_compat; [lra|apply Rinv_0_lt_compat, HN]).
  apply Rlt_Qlt. rewrite Hi', Hj'. nra.
Qed.

(** X6: the sample points [x_vals = np.linspace(xmin, xmax, 1000)]: there
    are 1000 of them, the first is [xmin], the last is [xmax], sample [i]
    is [xmin + i * (xmax - xmin) / 999]; when [xmin <= xmax] every sample
    lies in [xmin, xmax], and when [xmin < xmax] the samples increase
    strictly. *)
Theorem X6_x_vals_samples (xmin xmax : Q) :
  length (x_vals xmin xmax) = 1000%nat
  /\ (List.nth 0 (x_vals xmin xmax) 0 == xmin)%Q
  /\ List.last (x_vals xmin xmax) 0%Q = xmax
  /\ (forall i : nat,
        (i < 1000)%nat ->
        (List.nth i (x_vals xmin xmax) 0
         == xmin + inject_Z (Z.of_nat i) * ((xmax - xmin) / 999))%Q)
  /\ ((xmin <= xmax)%Q ->
      forall v : Q, In v (x_vals xmin xmax) ->
        (xmin <= v)%Q /\ (v <= xmax)%Q)
  /\ ((xmin < xmax)%Q ->
      forall i j : nat, (i < j)%nat -> (j < 1000)%nat ->
        (List.nth i (x_vals xmin xmax) 0 < List.nth j (x_vals xmin xmax) 0)%Q).
Proof.
  destruct (x_vals_spec xmin xmax) as (Hlen & Hfirst & Hlast & Hnth).
  repeat (split; [assumption|]). split.
  - intros Hle v Hv.
    destruct (List.In_nth _ _ 0%Q Hv) as (i & Hi & <-).
    rewrite Hlen in Hi. unfold x_vals. apply linspace_bounds; [lia|lia|exact Hle].
  - intros Hlt i j Hij Hj. unfold x_vals.
    apply linspace_increasing; assumption.
Qed.

(** ** The derivatives of the other three templates *)

(** X7: the derivative pair of the exponential template is
    [a*b*e^(b*x)] and [a*b^2*e^(b*x)], that of the trigonometric template
    is [a*b*cos(b*x)] and [-a*b^2*sin(b*x)], and that of the logarithmic
    template is [a/x] and [-a/x^2] wherever [b*x > 0]. *)
Theorem X7_derivative_closed_forms (p : params) :
  (build_function "Exponential (Market Growth)" p = Some (exponential p)
   /\ forall x : R,
       denote (fst (derivatives (exponential p))) x
       = (Q2R (a p) * Q2R (b p) * exp (Q2R (b p) * x))%R
       /\ denote (snd (derivatives (exponential p))) x
          = (Q2R (a p) * Q2R (b p) * Q2R (b p) * exp (Q2R (b p) * x))%R)
  /\ (build_function "Trigonometric (Seasonality)" p = Some (trigonometric p)
      /\ forall x : R,
          denote (fst (derivatives (trigonometric p))) x
          = (Q2R (a p) * Q2R (b p) * cos (Q2R (b p) * x))%R
          /\ denote (snd (derivatives (trigonometric p))) x
             = (- (Q2R (a p) * Q2R (b p) * Q2R (b p))
                * sin (Q2R (b p) * x))%R)
  /\ (build_function "Logarithmic (Diminishing Returns)" p
      = Some (logarithmic p)
      /\ forall x : R,
          (0 < Q2R (b p) * x)%R ->
          denote (fst (derivatives (logarithmic p))) x = (Q2R (a p) / x)%R
          /\ denote (snd (derivatives (logarithmic p))) x
             = (- Q2R (a p) / (x * x))%R).
Proof.
  unfold derivatives. cbn [fst snd].
  split; [|split]; (split; [reflexivity|]).
  - intros x. split; [apply exponential_prime|apply exponential_double].
  - intros x. split; [apply trigonometric_prime|apply trigonometric_double].
  - intros x Hx.
    split; [apply logarithmic_prime_closed|apply logarithmic_double_closed];
      exact Hx.
Qed.

(** ** The logarithm is sampled inside its domain *)

(** X8: with [b > 0] and a range that starts above 0 (the slider starts at
    0.1), the argument [b*x] of the logarithm is positive at every sample
    point, so the logarithmic template and its two derivatives are defined
    there, with the values [a*ln(b*x) + c], [a/x] and [-a/x^2]; the sampled
    curve of the template is the array of these values. *)
Theorem X8_logarithm_sampled_in_domain (xmin xmax : Q) (p : params) :
  (0 < b p)%Q -> (0 < xmin)%Q -> (xmin <= xmax)%Q ->
  (forall v : Q,
     In v (x_vals xmin xmax) ->
     (0 < Q2R (b p) * Q2R v)%R
     /\ defined (logarithmic p) (Q2R v)
     /\ defined (sp_diff (logarithmic p)) (Q2R v)
     /\ defined (sp_diff (sp_diff (logarithmic p))) (Q2R v)
     /\ denote (sp_diff (logarithmic p)) (Q2R v) = (Q2R (a p) / Q2R v)%R
     /\ denote (sp_diff (sp_diff (logarithmic p))) (Q2R v)
        = (- Q2R (a p) / (Q2R v * Q2R v))%R)
  /\ sample xmin xmax (logarithmic p)
     = Array (List.map
                (fun v => (Q2R (a p) * ln (Q2R (b p) * Q2R v) + Q2R (c p))%R)
                (x_vals xmin xmax)).
Proof.
  intros Hb Hxmin Hle. split.
  - intros v Hv.
    destruct (List.In_nth _ _ 0%Q Hv) as (i & Hi & <-).
    rewrite length_x_vals in Hi.
    destruct (linspace_bounds xmin xmax 1000 i 0%Q ltac:(lia) Hi Hle)
      as [Hlo _].
    fold (x_vals xmin xmax) in Hlo.
    set (w := List.nth i (x_vals xmin xmax) 0%Q) in *.
    assert (Hpos : (0 < Q2R (b p) * Q2R w)%R).
    { apply Qlt_Rlt in Hb, Hxmin. apply Qle_Rle in Hlo.
      rewrite Q2R_zero in Hb, Hxmin. apply Rmult_lt_0_compat; lra. }
    assert (Hd : defined (logarithmic p) (Q2R w))
      by (apply defined_logarithmic, Hpos).
    split; [exact Hpos|]. split; [exact Hd|].
    split; [apply defined_sp_diff, Hd|].
    split; [apply defined_sp_diff, defined_sp_diff, Hd|].
    split; [apply logarithmic_prime_closed|apply logarithmic_double_closed];
      exact Hpos.
  - rewrite sample_has_x by reflexivity. reflexivity.
Qed.

Lemma X8_logarithm_sampled_in_domain_witness :
  (0 < b (mk_params 1.2 0.45 3))%Q /\ (0 < 0.1)%Q /\ (0.1 <= 5)%Q
  /\ forall v : Q,
      In v (x_vals 0.1 5) ->
      (0 < Q2R (b (mk_params 1.2 0.45 3)) * Q2R v)%R
      /\ defined (logarithmic (mk_params 1.2 0.45 3)) (Q2R v).
Proof.
  assert (Hb : (0 < b (mk_params 1.2 0.45 3))%Q) by reflexivity.
  assert (Hx : (0 < 0.1)%Q) by reflexivity.
  assert (Hle : (0.1 <= 5)%Q) by discriminate.
  repeat (split; [assumption|]).
  intros v Hv.
  destruct (X8_logarithm_sampled_in_domain 0.1 5 (mk_params 1.2 0.45 3)
              Hb Hx Hle) as [Hall _].
  destruct (Hall v Hv) as (Hpos & Hd & _). split; assumption.
Defined.

(** ** What a completed call of [plot_country] has drawn *)

Lemma catalog_has_x (function_type country : string) :
  In function_type array_types -> In country countries ->
  exists p f,
    getitem country_params country = Ok p
    /\ build_function function_type p = Some f
    /\ has_x f = true /\ has_x (sp_diff f) = true
    /\ has_x (sp_diff (sp_diff f)) = true.
Proof.
  intros Hft Hc.
  repeat (destruct Hft as [<-|Hft]); try contradiction;
    repeat (destruct Hc as [<-|Hc]); try contradiction;
    (eexists; eexists;
     split; [vm_compute; reflexivity|];
     split; [reflexivity|]; repeat split; reflexivity).
Qed.

Lemma plot_country_full (function_type : string) (xmin xmax : Q)
    (sp_solve : expr -> result (list root)) (country linestyle : string)
    (p : params) (f : expr) (fig : figure) :
  getitem country_params country = Ok p ->
  build_function function_type p = Some f ->
  has_x f = true -> has_x (sp_diff f) = true ->
  has_x (sp_diff (sp_diff f)) = true ->
  plot_country function_type xmin xmax sp_solve country linestyle fig
  = (Ok tt,
     fig ++ country_lines xmin xmax f country linestyle
     ++ solved_marks xmin xmax sp_solve 0 1 "--" 0.6 (sp_diff f)
     ++ solved_marks xmin xmax sp_solve 0 2 ":" 0.7 (sp_diff (sp_diff f))).
Proof.
  intros Hp Hf H0 H1 H2. rewrite plot_country_spec.
  unfold country_artists. rewrite Hp, Hf. cbv beta iota zeta.
  rewrite H0, H1, H2. cbn [negb fst snd].
  rewrite !sample_has_x by assumption. reflexivity.
Qed.

Lemma marker_positions_country_lines (xmin xmax : Q) (f : expr)
    (country linestyle : string) (k : nat) :
  marker_positions k (country_lines xmin xmax f country linestyle) = [].
Proof. reflexivity. Qed.

(** X10: after a completed call, axes 0 (the function) carries the
    critical markers followed by the inflection markers, axes 1 (the first
    derivative) only the critical markers and axes 2 (the second
    derivative) only the inflection markers.  The two blocks are
    independent: what one solver call raises or returns does not change
    the markers of the other block. *)
Theorem X10_marker_layout (function_type : string) (xmin xmax : Q)
    (sp_solve : expr -> result (list root)) (country linestyle : string)
    (fig : figure) :
  In function_type array_types -> In country countries ->
  exists (p : params) (f : expr),
    getitem country_params country = Ok p
    /\ build_function function_type p = Some f
    /\ let fig' :=
         snd (plot_country function_type xmin xmax sp_solve country
                linestyle fig) in
       let critical := solved_values xmin xmax sp_solve (sp_diff f) in
       let inflection :=
         solved_values xmin xmax sp_solve (sp_diff (sp_diff f)) in
       marker_positions 0 fig'
       = marker_positions 0 fig ++ critical ++ inflection
       /\ marker_positions 1 fig' = marker_positions 1 fig ++ critical
       /\ marker_positions 2 fig' = marker_positions 2 fig ++ inflection.
Proof.
  intros Hft Hc.
  destruct (catalog_has_x function_type country Hft Hc)
    as (p & f & Hp & Hf & H0 & H1 & H2).
  exists p, f. split; [exact Hp|]. split; [exact Hf|].
  cbv zeta.
  rewrite (plot_country_full function_type xmin xmax sp_solve country
             linestyle p f fig Hp Hf H0 H1 H2).
  cbn [snd].
  rewrite !marker_positions_app, !marker_positions_country_lines.
  rewrite !marker_positions_solved_marks by lia.
  cbn [Nat.eqb orb app]. rewrite ?List.app_nil_r.
  repeat split; reflexivity.
Qed.

Lemma X10_marker_layout_witness :
  In "Exponential (Market Growth)" array_types
  /\ In "Mexico 🇲🇽" countries
  /\ marker_positions 0
       (snd (plot_country "Exponential (Market Growth)" 0.1 5 mixed_solver
               "Mexico 🇲🇽" "-" subplots))
     = [1%Q; 5%Q; 1%Q; 5%Q]
  /\ marker_positions 1
       (snd (plot_country "Exponential (Market Growth)" 0.1 5 mixed_solver
               "Mexico 🇲🇽" "-" subplots))
     = [1%Q; 5%Q].
Proof.
  assert (Hft : In "Exponential (Market Growth)" array_types)
    by (left; reflexivity).
  assert (Hc : In "Mexico 🇲🇽" countries)
    by (do 3 right; left; reflexivity).
  split; [exact Hft|]. split; [exact Hc|].
  destruct (X10_marker_layout "Exponential (Market Growth)" 0.1 5
              mixed_solver "Mexico 🇲🇽" "-" subplots Hft Hc)
    as (p & f & _ & _ & Hm0 & Hm1 & _).
  split; [exact Hm0|exact Hm1].
Defined.

(** ** Templates without critical or inflection points *)

Lemma catalog_positive (country : string) (p : params) :
  getitem country_params country = Ok p -> (0 < a p)%Q /\ (0 < b p)%Q.
Proof.
  intros Hp. pose proof (getitem_known country p Hp) as Hc.
  repeat (destruct Hc as [<-|Hc]); try contradiction;
    vm_compute in Hp; injection Hp as <-; split; reflexivity.
Qed.





(** ** The whole script *)

(** X12: the script returns normally, so that the figure reaches
    [st.pyplot], exactly when the function type is the exponential, the
    logarithmic or the trigonometric one, the primary country is in the
    table and, if a second pass runs (comparison mode with a different
    country), the comparison country is in the table too.  With the
    polynomial type it never does. *)
Theorem X12_script_completes_iff (function_type : string) (xmin xmax : Q)
    (sp_solve : expr -> result (list root)) (comparison_mode : bool)
    (country_1 : string) (country_2 : option string) (fig : figure) :
  fst (script function_type xmin xmax sp_solve comparison_mode country_1
         country_2 fig) = Ok tt
  <-> In function_type array_types
      /\ In country_1 countries
      /\ (comparison_mode = true -> country_2 <> Some country_1 ->
          exists country, country_2 = Some country /\ In country countries).
Proof.
  unfold script, bind. rewrite plot_country_spec.
  pose proof (country_artists_Ok_iff function_type xmin xmax sp_solve
                country_1 "-") as H1.
  destruct (fst (country_artists function_type xmin xmax sp_solve country_1
                   "-")) as [[]|err].
  - destruct H1 as [H1 _]. destruct (H1 eq_refl) as [Hc1 Hft].
    destruct comparison_mode; cbn [andb].
    + destruct (decide (country_2 = Some country_1)) as [Heq|Hne].
      * rewrite bool_decide_eq_true_2 by exact Heq. cbn [negb fst ret].
        split; [|reflexivity].
        intros _. split; [exact Hft|]. split; [exact Hc1|].
        intros _ Habs. contradiction.
      * rewrite bool_decide_eq_false_2 by exact Hne. cbn [negb].
        destruct country_2 as [country|].
        -- rewrite plot_country_spec. cbn [fst].
           rewrite country_artists_Ok_iff. split.
           ++ intros [Hc2 _]. split; [exact Hft|]. split; [exact Hc1|].
              intros _ _. exists country. split; [reflexivity|exact Hc2].
           ++ intros (_ & _ & H2).
              destruct (H2 eq_refl Hne) as (c' & [= <-] & Hc2).
              split; assumption.
        -- cbn [fst raise]. split; [discriminate|].
           intros (_ & _ & H2).
           destruct (H2 eq_refl Hne) as (c' & Habs & _). discriminate.
    + cbn [fst ret]. split; [|reflexivity].
      intros _. split; [exact Hft|]. split; [exact Hc1|]. discriminate.
  - cbn [fst]. split; [discriminate|].
    intros (Hft & Hc1 & _). destruct H1 as [_ H1].
    discriminate (H1 (conj Hc1 Hft)).
Qed.

Lemma legend_labels_single (i : nat) (fig : figure) (xs : list Q)
    (ys : list R) (ls label : string) :
  curves i fig = [Line2D xs ys ls label] -> legend_labels i fig = [label].
Proof. intros H. unfold legend_labels. rewrite H. reflexivity. Qed.

(** X13: when the script completes, the legend of the function axes
    ([axes[0].legend()]) names the primary country and, after it, the
    comparison country when comparison mode is on and the two countries
    differ; a country is never listed twice and the markers are not
    listed. *)
Theorem X13_legend (function_type : string) (xmin xmax : Q)
    (sp_solve : expr -> result (list root)) (comparison_mode : bool)
    (country_1 choice : string) :
  let run :=
    script function_type xmin xmax sp_solve comparison_mode country_1
      (sidebar_country_2 comparison_mode choice) subplots in
  fst run = Ok tt ->
  legend_labels 0 (snd run)
  = country_1
    :: (if comparison_mode && negb (String.eqb choice country_1)
        then [choice] else []).
Proof.
  intros run Hok. unfold run in *. clear run.
  rewrite script_sidebar in *.
  pose proof (country_curves function_type xmin xmax sp_solve country_1 "-"
                0) as [_ H1].
  destruct (comparison_mode && negb (String.eqb choice country_1)).
  - unfold bind in *. rewrite plot_country_spec in *.
    unfold subplots in *. cbn [app] in *.
    destruct (fst (country_artists function_type xmin xmax sp_solve
                     country_1 "-")) as [[]|err] eqn:E1; [|discriminate].
    rewrite plot_country_spec in *. cbn [fst snd] in *.
    pose proof (country_curves function_type xmin xmax sp_solve choice "--"
                  0) as [_ H2].
    destruct (H1 eq_refl ltac:(lia)) as [ys1 Hc1].
    destruct (H2 Hok ltac:(lia)) as [ys2 Hc2].
    unfold legend_labels. rewrite curves_app, Hc1, Hc2. reflexivity.
  - rewrite plot_country_spec in *. unfold subplots in *.
    cbn [app fst snd] in *.
    destruct (H1 Hok ltac:(lia)) as [ys1 Hc1].
    apply (legend_labels_single _ _ _ _ _ _ Hc1).
Qed.

Lemma X13_legend_witness :
  fst (script "Trigonometric (Seasonality)" 0.1 5 empty_solver true
         "Spain 🇪🇸" (sidebar_country_2 true "Italy 🇮🇹") subplots) = Ok tt
  /\ legend_labels 0
       (snd (script "Trigonometric (Seasonality)" 0.1 5 empty_solver true
               "Spain 🇪🇸" (sidebar_country_2 true "Italy 🇮🇹") subplots))
     = ["Spain 🇪🇸"; "Italy 🇮🇹"].
Proof.
  assert (Hok :
    fst (script "Trigonometric (Seasonality)" 0.1 5 empty_solver true
           "Spain 🇪🇸" (sidebar_country_2 true "Italy 🇮🇹") subplots) = Ok tt).
  { cbn [sidebar_country_2].
    rewrite script_other_figure by discriminate.
    rewrite (catalog_completes "Trigonometric (Seasonality)" 0.1 5
               empty_solver "Spain 🇪🇸" "-")
      by (simpl; auto). cbn [fst].
    apply catalog_completes; simpl; auto. }
  split; [exact Hok|].
  exact (X13_legend "Trigonometric (Seasonality)" 0.1 5 empty_solver true
           "Spain 🇪🇸" "Italy 🇮🇹" Hok).
Defined.

(** ** NumPy's values off the domain of the logarithm *)

Lemma np_log_positive (r : R) : (0 < r)%R -> np_log (Fin r) = Fin (ln r).
Proof.
  intros Hr. unfold np_log.
  destruct (total_order_T r 0) as [[Hlt|Heq]|Hgt]; [lra|lra|reflexivity].
Qed.



Lemma np_power_defined (r : R) (n : Z) :
  ((n < 0)%Z -> r <> 0%R) -> np_power (Fin r) n = Fin (powerRZ r n).
Proof.
  intros Hr. unfold np_power.
  destruct (Z.eqb_spec n 0) as [->|Hn0]; [reflexivity|].
  destruct (Z.ltb_spec n 0) as [Hlt|Hge]; [|reflexivity].
  destruct (Req_EM_T r 0) as [Heq|Hne]; [|reflexivity].
  contradiction (Hr Hlt Heq).
Qed.

(** Where the expression is defined, NumPy's value is finite and is the
    value of the expression. *)
Lemma np_value_defined (e : expr) (x : R) :
  defined e x -> np_value e (Fin x) = Fin (denote e x).
Proof.
  induction e as [q| |u IHu v IHv|u IHu v IHv|u IHu n|u IHu|u IHu|u IHu|u IHu];
    cbn [defined np_value denote]; intros Hd; try reflexivity.
  - destruct Hd as [Hu Hv]. rewrite IHu, IHv by assumption. reflexivity.
  - destruct Hd as [Hu Hv]. rewrite IHu, IHv by assumption. reflexivity.
  - destruct Hd as [Hu Hn]. rewrite IHu by assumption.
    apply np_power_defined, Hn.
  - rewrite IHu by assumption. reflexivity.
  - destruct Hd as [Hu Hpos]. rewrite IHu by assumption.
    apply np_log_positive, Hpos.
  - rewrite IHu by assumption. reflexivity.
  - rewrite IHu by assumption. reflexivity.
Qed.

(** On sample points inside the domain, the array of [lambdify] is the
    array of NumPy's values. *)
Lemma lambdify_np_sample (e : expr) (xs : list R) :
  has_x e = true ->
  (forall x, In x xs -> defined e x) ->
  List.map Fin (to_list (lambdify e (Array xs))) = np_sample e xs.
Proof.
  intros Hx Hd. rewrite lambdify_Array, Hx. cbn [to_list].
  unfold np_sample. rewrite List.map_map.
  apply List.map_ext_in. intros x Hin. symmetry.
  apply np_value_defined, Hd, Hin.
Qed.



Lemma np_add_not_finite (u : float64) (r : R) :
  is_finite u = false -> is_finite (np_add u (Fin r)) = false.
Proof. destruct u; cbn; intros H; congruence. Qed.



(** ** The critical point of the polynomial template *)







(** ** The three curves of a completed call *)

Lemma catalog_samples_defined (function_type country : string) (p : params)
    (f : expr) (xmin xmax : Q) :
  getitem country_params country = Ok p ->
  build_function function_type p = Some f ->
  (function_type = "Logarithmic (Diminishing Returns)" ->
   (0 < xmin)%Q /\ (xmin <= xmax)%Q) ->
  forall v : Q, In v (x_vals xmin xmax) -> defined f (Q2R v).
Proof.
  intros Hp Hf Hlog v Hv.
  destruct (build_function_cases _ _ _ Hf)
    as [[-> ->]|[[-> ->]|[[-> ->]|[-> ->]]]].
  - apply defined_exponential.
  - destruct (Hlog eq_refl) as [Hxmin Hle].
    destruct (catalog_positive country p Hp) as [_ Hb].
    destruct (List.In_nth _ _ 0%Q Hv) as (i & Hi & <-).
    rewrite length_x_vals in Hi.
    destruct (linspace_bounds xmin xmax 1000 i 0%Q ltac:(lia) Hi Hle)
      as [Hlo _].
    fold (x_vals xmin xmax) in Hlo.
    apply defined_logarithmic.
    apply Qlt_Rlt in Hb, Hxmin. apply Qle_Rle in Hlo.
    rewrite Q2R_zero in Hb, Hxmin. apply Rmult_lt_0_compat; lra.
  - apply defined_polynomial.
  - apply defined_trigonometric.
Qed.

(** X9: for a country of the table and the exponential, logarithmic or
    trigonometric type (for the logarithmic type on a range that starts
    above 0, as every range of the slider does), one call of
    [plot_country] adds exactly one curve to each of the three axes: [f]
    on axes 0, [f'] on axes 1 and [f''] on axes 2, each through the 1000
    sample points, with the line style and the label of the call.  The
    three expressions are defined at every sample point, so the values
    plotted are the finite values that NumPy computes there.  Curves
    already on the axes stay in front of the new one. *)
Theorem X9_three_curves (function_type : string) (xmin xmax : Q)
    (sp_solve : expr -> result (list root)) (country linestyle : string)
    (fig : figure) :
  In function_type array_types -> In country countries ->
  (function_type = "Logarithmic (Diminishing Returns)" ->
   (0 < xmin)%Q /\ (xmin <= xmax)%Q) ->
  exists (p : params) (f : expr),
    getitem country_params country = Ok p
    /\ build_function function_type p = Some f
    /\ let fig' :=
         snd (plot_country function_type xmin xmax sp_solve country
                linestyle fig) in
       let xs := x_vals xmin xmax in
       let ys e := List.map (fun v => denote e (Q2R v)) xs in
       curves 0 fig' = curves 0 fig ++ [Line2D xs (ys f) linestyle country]
       /\ curves 1 fig'
          = curves 1 fig ++ [Line2D xs (ys (sp_diff f)) linestyle country]
       /\ curves 2 fig'
          = curves 2 fig
            ++ [Line2D xs (ys (sp_diff (sp_diff f))) linestyle country]
       /\ length xs = 1000%nat
       /\ (forall e, In e [f; sp_diff f; sp_diff (sp_diff f)] ->
             length (ys e) = 1000%nat
             /\ (forall v, In v xs -> defined e (Q2R v))
             /\ List.map Fin (ys e) = np_sample e (List.map Q2R xs)).
Proof.
  intros Hft Hc Hlog.
  destruct (catalog_has_x function_type country Hft Hc)
    as (p & f & Hp & Hf & H0 & H1 & H2).
  exists p, f. split; [exact Hp|]. split; [exact Hf|].
  cbv zeta.
  rewrite (plot_country_full function_type xmin xmax sp_solve country
             linestyle p f fig Hp Hf H0 H1 H2).
  cbn [snd].
  rewrite !curves_app, !curves_solved_marks, !List.app_nil_r.
  do 3 (split; [reflexivity|]).
  split; [apply length_x_vals|].
  pose proof (catalog_samples_defined function_type country p f xmin xmax
                Hp Hf Hlog) as Hdef.
  assert (Hall : forall e, In e [f; sp_diff f; sp_diff (sp_diff f)] ->
                 forall v, In v (x_vals xmin xmax) -> defined e (Q2R v)).
  { intros e [<-|[<-|[<-|[]]]] v Hv.
    - apply Hdef, Hv.
    - apply defined_sp_diff, Hdef, Hv.
    - apply defined_sp_diff, defined_sp_diff, Hdef, Hv. }
  intros e He.
  split; [rewrite List.length_map; apply length_x_vals|].
  split; [apply Hall, He|].
  unfold np_sample. rewrite !List.map_map.
  apply List.map_ext_in. intros v Hv. symmetry.
  apply np_value_defined, (Hall e He v Hv).
Qed.

Lemma X9_three_curves_witness :
  In "Logarithmic (Diminishing Returns)" array_types
  /\ In "Japan 🇯🇵" countries
  /\ (0 < 0.1)%Q /\ (0.1 <= 5)%Q
  /\ exists (p : params) (f : expr),
      getitem country_params "Japan 🇯🇵" = Ok p
      /\ build_function "Logarithmic (Diminishing Returns)" p = Some f
      /\ curves 2
           (snd (plot_country "Logarithmic (Diminishing Returns)" 0.1 5
                   failing_solver "Japan 🇯🇵" "-" subplots))
         = [Line2D (x_vals 0.1 5)
              (List.map (fun v => denote (sp_diff (sp_diff f)) (Q2R v))
                 (x_vals 0.1 5))
              "-" "Japan 🇯🇵"]
      /\ forall v, In v (x_vals 0.1 5) -> defined f (Q2R v).
Proof.
  assert (Hft : In "Logarithmic (Diminishing Returns)" array_types)
    by (right; left; reflexivity).
  assert (Hc : In "Japan 🇯🇵" countries)
    by (do 4 right; left; reflexivity).
  assert (Hx : (0 < 0.1)%Q) by reflexivity.
  assert (Hle : (0.1 <= 5)%Q) by discriminate.
  repeat (split; [assumption|]).
  destruct (X9_three_curves "Logarithmic (Diminishing Returns)" 0.1 5
              failing_solver "Japan 🇯🇵" "-" subplots Hft Hc
              (fun _ => conj Hx Hle))
    as (p & f & Hp & Hf & _ & _ & H2 & _ & Hall).
  exists p, f. split; [exact Hp|]. split; [exact Hf|].
  split; [exact H2|].
  exact (proj1 (proj2 (Hall f (or_introl eq_refl)))).
Defined.
